(** * Convention checker of the 3BX code base (scripts/check_conventions.py)

    A shallow embedding of the checker: the casing predicates, the
    brace-depth scope tracker, the regular-expression matchers, the
    per-file policy evaluation and the modification-time cache.

    Modelling conventions.
    - A Python [str] is a Rocq [string]; a character is the code point
      of the same number, so the model covers text whose code points are
      below 256.  The character classes of Python ([str.isupper],
      [str.islower], the [\s], [\w], [\d] of [re] on [str] patterns) are
      written out for that range.
    - A Python [int] is a [Z]; list indices and offsets are [nat].
    - Code that can raise returns a [result].
    - The library calls of the script are modelled next to it: [re]
      ([finditer] of a backtracking matcher), [os.path.basename] and
      [pathlib.PurePosixPath.stem] (POSIX paths), [json.load] with the
      two limits of the interpreter it can meet, and the file system as
      a function from paths to regular files.
    - [main] is modelled up to its call of [save_cache]; [save_cache]
      and the printing of the report are not.
    - [check_file] builds its messages from a [violation], which keeps
      the rule and the names apart; [message] gives the text.

    The file has the model first, then the definitions that the
    statements use, then the lemmas and the theorems on the claims. *)

From Stdlib Require Import String Ascii List Bool Arith ZArith Lia DecimalString.
Import ListNotations.
Open Scope string_scope.
Open Scope list_scope.
Open Scope nat_scope.

Set Implicit Arguments.

(** ** Exceptions *)

Inductive exn : Type :=
| IndexError
| AttributeError
| OSError
| UnicodeDecodeError
| JSONDecodeError
| ValueError
| RecursionError
| StopIteration.

Inductive result (A : Type) : Type :=
| Ok (a : A)
| Raise (e : exn).
Arguments Ok {A} a.
Arguments Raise {A} e.

Definition bind {A B : Type} (r : result A) (f : A -> result B) : result B :=
  match r with
  | Ok a => f a
  | Raise e => Raise e
  end.

Notation "x <- r ;; k" := (bind r (fun x => k))
  (at level 61, r at next level, right associativity).

(** ** Characters *)

Definition code (c : ascii) : nat := nat_of_ascii c.

Definition in_range (lo hi : nat) (c : ascii) : bool :=
  (lo <=? code c) && (code c <=? hi).

Definition ascii_upper (c : ascii) : bool := in_range 65 90 c.
Definition ascii_lower (c : ascii) : bool := in_range 97 122 c.
Definition ascii_digit (c : ascii) : bool := in_range 48 57 c.

(** [str.isupper] on a one-character string. *)
Definition isupper (c : ascii) : bool :=
  ascii_upper c || in_range 192 214 c || in_range 216 222 c.

(** [str.islower] on a one-character string. *)
Definition islower (c : ascii) : bool :=
  ascii_lower c || (code c =? 170) || (code c =? 181) || (code c =? 186)
  || in_range 223 246 c || in_range 248 255 c.

(** [\s] of a [str] pattern. *)
Definition is_space (c : ascii) : bool :=
  in_range 9 13 c || in_range 28 32 c || (code c =? 133) || (code c =? 160).

(** [\d] of a [str] pattern. *)
Definition is_digit (c : ascii) : bool := ascii_digit c.

(** [\w] of a [str] pattern: alphanumeric or underscore. *)
Definition is_word (c : ascii) : bool :=
  isupper c || islower c || ascii_digit c || (code c =? 95)
  || (code c =? 178) || (code c =? 179) || (code c =? 185)
  || in_range 188 190 c.

(** [[A-Za-z_]] and [[A-Za-z0-9_]]. *)
Definition ident_start (c : ascii) : bool :=
  ascii_upper c || ascii_lower c || (code c =? 95).
Definition ident_char (c : ascii) : bool :=
  ident_start c || ascii_digit c.

Definition one_of (s : string) (c : ascii) : bool :=
  existsb (Ascii.eqb c) (list_ascii_of_string s).

(** ** Regular expressions: a backtracking matcher as in [re]

    Greedy repetition, leftmost alternative first, one capturing group.
    The cursor carries the character before the position (for [\b] and
    [^]), the text that is left and the offset. *)

Inductive regex : Type :=
| Eps
| Chr (c : ascii)
| Cls (p : ascii -> bool)
| WordB
| BoL
| Seq (r1 r2 : regex)
| Alt (r1 r2 : regex)
| Star (r : regex)
| Grp (r : regex).

Record cursor : Type := Cursor {
  prev : option ascii;
  rest : list ascii;
  pos : nat
}.

Definition start_cursor (content : string) : cursor :=
  Cursor None (list_ascii_of_string content) 0.

Definition advance (c : cursor) : option cursor :=
  match rest c with
  | [] => None
  | a :: l => Some (Cursor (Some a) l (S (pos c)))
  end.

Definition word_before (c : cursor) : bool :=
  match prev c with Some a => is_word a | None => false end.
Definition word_after (c : cursor) : bool :=
  match rest c with a :: _ => is_word a | [] => false end.

Definition newline : ascii := "010"%char.

Definition at_line_start (c : cursor) : bool :=
  match prev c with Some a => Ascii.eqb a newline | None => true end.

Definition consumed (c c' : cursor) : string :=
  string_of_list_ascii (firstn (pos c' - pos c) (rest c)).

Section Matcher.
Variable A : Type.

(** [star_loop step k n c cap]: at most [n] further iterations of a
    body [step], each of which has to consume something; the longest
    run is tried first. *)
Fixpoint star_loop
    (step : cursor -> option string -> (cursor -> option string -> option A) -> option A)
    (k : cursor -> option string -> option A)
    (n : nat) (c : cursor) (cap : option string) : option A :=
  match n with
  | 0 => k c cap
  | S n' =>
      match step c cap (fun c' cap' =>
               if pos c <? pos c' then star_loop step k n' c' cap' else None) with
      | Some a => Some a
      | None => k c cap
      end
  end.

Fixpoint run (r : regex) (c : cursor) (cap : option string)
    (k : cursor -> option string -> option A) : option A :=
  match r with
  | Eps => k c cap
  | Chr x =>
      match rest c with
      | a :: l => if Ascii.eqb a x then k (Cursor (Some a) l (S (pos c))) cap else None
      | [] => None
      end
  | Cls p =>
      match rest c with
      | a :: l => if p a then k (Cursor (Some a) l (S (pos c))) cap else None
      | [] => None
      end
  | WordB => if xorb (word_before c) (word_after c) then k c cap else None
  | BoL => if at_line_start c then k c cap else None
  | Seq r1 r2 => run r1 c cap (fun c' cap' => run r2 c' cap' k)
  | Alt r1 r2 =>
      match run r1 c cap k with
      | Some a => Some a
      | None => run r2 c cap k
      end
  | Star r' => star_loop (run r') k (length (rest c)) c cap
  | Grp r' => run r' c cap (fun c' _ => k c' (Some (consumed c c')))
  end.
End Matcher.

(** A match object: [start()], [end()], [group(0)] and [group(1)]. *)
Record rmatch : Type := Match {
  m_start : nat;
  m_end : nat;
  m_group0 : string;
  m_group1 : option string
}.

(** [match.group(1)]; every pattern of the program has one mandatory
    group, so the [None] of a group that did not take part never shows. *)
Definition group1 (m : rmatch) : string :=
  match m_group1 m with Some s => s | None => "" end.

Definition match_at (r : regex) (c : cursor) : option (cursor * rmatch) :=
  run r c None (fun c' cap => Some (c', Match (pos c) (pos c') (consumed c c') cap)).

(** [pattern.finditer]: leftmost matches, not overlapping; after a
    match the search goes on where it ended (one further on after an
    empty match). *)
Fixpoint finditer_from (fuel : nat) (r : regex) (c : cursor) : list rmatch :=
  match fuel with
  | 0 => []
  | S fuel' =>
      let next := match advance c with
                  | Some c1 => finditer_from fuel' r c1
                  | None => []
                  end in
      match match_at r c with
      | Some (c', m) =>
          m :: (if pos c <? pos c' then finditer_from fuel' r c' else next)
      | None => next
      end
  end.

Definition finditer (r : regex) (content : string) : list rmatch :=
  finditer_from (S (String.length content)) r (start_cursor content).

(** *** Pattern combinators *)

Fixpoint lit_chars (l : list ascii) : regex :=
  match l with
  | [] => Eps
  | [a] => Chr a
  | a :: l' => Seq (Chr a) (lit_chars l')
  end.
Definition lit (s : string) : regex := lit_chars (list_ascii_of_string s).

Fixpoint seq (l : list regex) : regex :=
  match l with
  | [] => Eps
  | [r] => r
  | r :: l' => Seq r (seq l')
  end.

Fixpoint alt (l : list regex) : regex :=
  match l with
  | [] => Cls (fun _ => false)
  | [r] => r
  | r :: l' => Alt r (alt l')
  end.

Definition plus (r : regex) : regex := Seq r (Star r).
Definition opt (r : regex) : regex := Alt r Eps.
Definition sp : regex := Cls is_space.
Definition ident_re : regex := Seq (Cls ident_start) (Star (Cls ident_char)).

(** *** The patterns of the program *)

Definition type_tail : list regex :=
  [Grp ident_re; Star sp; Cls (one_of "{;:")].

Definition STRUCT_PATTERN : regex :=
  seq ([WordB; lit "struct"; plus sp] ++ type_tail).
Definition CLASS_PATTERN : regex :=
  seq ([WordB; lit "class"; plus sp] ++ type_tail).
Definition ENUM_PATTERN : regex :=
  seq ([WordB; lit "enum"; plus sp; opt (Seq (lit "class") (plus sp))] ++ type_tail).

Definition amp_star : regex := Cls (one_of "&*").

Definition AUTO_VAR_PATTERN : regex :=
  seq [WordB; opt (Seq (lit "const") (plus sp)); lit "auto"; Star sp;
       opt amp_star; Star sp; Grp ident_re; Star sp; Cls (one_of "=;,)]")].

Definition CONST_REF_VAR_PATTERN : regex :=
  seq [WordB; lit "const"; plus sp;
       Cls ident_start; Star (Cls (fun c => ident_char c || one_of ":" c));
       opt (seq [Chr "<"; Star (Cls (fun c => negb (one_of ">" c))); Chr ">"]);
       Star sp; amp_star; Star sp; Grp ident_re; Star sp;
       Cls (one_of "=;,)]")].

Definition BASIC_TYPES : regex :=
  Seq (alt [lit "int"; lit "bool"; lit "float"; lit "double"; lit "char";
            lit "size_t"; lit "ssize_t";
            seq [lit "uint"; plus (Cls is_digit); lit "_t"];
            seq [lit "int"; plus (Cls is_digit); lit "_t"];
            lit "unsigned"; lit "signed"; lit "long"; lit "short"; lit "void"])
      WordB.

Definition BASIC_TYPE_VAR_PATTERN : regex :=
  seq [WordB; opt (Seq (lit "const") (plus sp));
       opt (Alt (Seq (lit "unsigned") (plus sp)) (Seq (lit "signed") (plus sp)));
       BASIC_TYPES; Star sp; opt amp_star; Star sp; Grp ident_re; Star sp;
       Cls (one_of "=;,)[]")].

Definition scope_prefix : regex := Seq ident_re (lit "::").
Definition not_rparen : regex := Cls (fun c => negb (one_of ")" c)).

Definition FUNCTION_PATTERN : regex :=
  seq [BoL; Star sp;
       Alt (seq [Cls ident_start;
                 Star (Cls (fun c => ident_char c || one_of "<>:,*&" c || is_space c));
                 plus sp; Star scope_prefix])
           (plus scope_prefix);
       Grp ident_re; Star sp;
       Chr "("; Star not_rparen; Chr ")"; Star sp;
       opt (Seq (lit "const") (Star sp));
       opt (Seq (lit "override") (Star sp));
       opt (seq [lit "noexcept";
                 opt (seq [Chr "("; Star not_rparen; Chr ")"]);
                 Star sp]);
       Chr "{"].

Definition namespace_pattern : regex :=
  seq [WordB; lit "namespace"; plus sp; ident_re; Star sp; Chr "{"].

(** ** String helpers of the Python runtime *)

(** [sub in s]. *)
Fixpoint contains (sub s : string) : bool :=
  prefix sub s ||
  match s with
  | EmptyString => false
  | String _ s' => contains sub s'
  end.

(** [s.startswith(p)] and [s.endswith(p)]. *)
Definition startswith (s p : string) : bool := prefix p s.
Definition endswith (s p : string) : bool :=
  (String.length p <=? String.length s)
  && String.eqb (substring (String.length s - String.length p) (String.length p) s) p.

(** [s.rfind(ch)], [None] for -1. *)
Fixpoint rfind (x : ascii) (s : string) : option nat :=
  match s with
  | EmptyString => None
  | String a s' =>
      match rfind x s' with
      | Some i => Some (S i)
      | None => if Ascii.eqb a x then Some 0 else None
      end
  end.

(** [s.count(ch)]. *)
Fixpoint count_char (x : ascii) (s : string) : nat :=
  match s with
  | EmptyString => 0
  | String a s' => (if Ascii.eqb a x then 1 else 0) + count_char x s'
  end.

(** [s.split(ch)]. *)
Fixpoint split_on (x : ascii) (s : string) : list string :=
  match s with
  | EmptyString => [""]
  | String a s' =>
      if Ascii.eqb a x then "" :: split_on x s'
      else match split_on x s' with
           | w :: ws => String a w :: ws
           | [] => [String a ""]
           end
  end.

Definition str_in (x : string) (l : list string) : bool :=
  existsb (String.eqb x) l.

(** [str(n)] for a non-negative [int]. *)
Definition str_of_nat (n : nat) : string := NilZero.string_of_uint (Nat.to_uint n).

(** [os.path.basename] of [posixpath]. *)
Definition basename (p : string) : string :=
  match rfind "/" p with
  | Some i => substring (S i) (String.length p - S i) p
  | None => p
  end.

(** [PurePosixPath(p).name]: the last of the components that are neither
    empty nor [.]; empty when there is none. *)
Definition path_name (p : string) : string :=
  last (filter (fun w => negb (String.eqb w "" || String.eqb w ".")) (split_on "/" p)) "".

(** [PurePosixPath(p).stem] (Python 3.4 to 3.13): the name up to its last
    dot, when that dot is neither the first nor the last character. *)
Definition stem (p : string) : string :=
  let name := path_name p in
  match rfind "." name with
  | Some i => if (0 <? i) && (i <? String.length name - 1) then substring 0 i name else name
  | None => name
  end.

(** ** Casing predicates *)

Definition has_underscore (s : string) : bool := contains "_" s.

Definition is_camel_case (name : string) : result bool :=
  if String.eqb name "" then Ok false
  else
    let name := stem name in
    match name with
    | EmptyString => Raise IndexError
    | String c _ =>
        if isupper c then Ok false
        else if has_underscore name then Ok false
        else Ok true
    end.

Definition is_pascal_case (name : string) : bool :=
  match name with
  | EmptyString => false
  | String c _ =>
      if islower c then false
      else if has_underscore name then false
      else true
  end.

(** ** Scope tracker *)

Definition namespace_brace_positions (content : string) : list nat :=
  map (fun m => m_end m - 1) (finditer namespace_pattern content).

Definition is_namespace_brace (ns : list nat) (i : nat) : bool :=
  existsb (Nat.eqb i) ns.

(** One turn of the loop [for i in range(pos)] on the character
    [content[i]]: the state is the depth and the stack of flags. *)
Definition scan_step (ns : list nat) (i : nat) (ch : ascii)
    (st : Z * list bool) : Z * list bool :=
  let '(depth, brace_stack) := st in
  if Ascii.eqb ch "{" then
    let is_namespace := is_namespace_brace ns i in
    (if negb is_namespace then (depth + 1)%Z else depth, is_namespace :: brace_stack)
  else if Ascii.eqb ch "}" then
    match brace_stack with
    | was_namespace :: brace_stack' =>
        (if negb was_namespace then (depth - 1)%Z else depth, brace_stack')
    | [] => (depth, [])
    end
  else (depth, brace_stack).

(** [n] turns from index [i], [chars] being [content[i:]]; reading past
    the end of the text is an [IndexError]. *)
Fixpoint scan (ns : list nat) (n i : nat) (chars : list ascii)
    (st : Z * list bool) : result (Z * list bool) :=
  match n with
  | 0 => Ok st
  | S n' =>
      match chars with
      | [] => Raise IndexError
      | ch :: chars' => scan ns n' (S i) chars' (scan_step ns i ch st)
      end
  end.

Definition get_type_nesting_depth (content : string) (pos : nat) : result Z :=
  st <- scan (namespace_brace_positions content) pos 0
          (list_ascii_of_string content) (0%Z, []) ;;
  Ok (fst st).

(** ** Definition extractor *)

(** [match.group(0)[-1]]; a match of a pattern that ends in a character
    class is never empty. *)
Definition end_char (m : rmatch) : option ascii :=
  last (map Some (list_ascii_of_string (m_group0 m))) None.

Definition is_definition_end (m : rmatch) : bool :=
  match end_char m with
  | Some ch => one_of "{:" ch
  | None => false
  end.

(** The loop of [find_definitions]: [matches] is the list built so far. *)
Fixpoint find_definitions_loop (content : string) (ms : list rmatch)
    (matches : list string) : result (list string) :=
  match ms with
  | [] => Ok matches
  | m :: ms' =>
      let name := group1 m in
      if is_definition_end m then
        d <- get_type_nesting_depth content (m_start m) ;;
        if (d =? 0)%Z then find_definitions_loop content ms' (matches ++ [name])
        else find_definitions_loop content ms' matches
      else find_definitions_loop content ms' matches
  end.

Definition find_definitions (content : string) (pattern : regex) : result (list string) :=
  find_definitions_loop content (finditer pattern content) [].

(** ** Policy evaluator *)

(** The violations of [check_file], by the rule that adds them, and the
    message each one stands for. *)
Inductive violation : Type :=
| Unreadable (e : string)
| TooLong (line_count : nat)
| FileName (filename : string)
| HeaderTypes (all_types : list string)
| SourceTypes (all_types : list string)
| StructName (name : string)
| ClassName (name : string)
| EnumName (name : string)
| VarShort (var_name : string)
| VarCase (var_name : string)
| FuncName (func_name : string).

Definition message (v : violation) : string :=
  match v with
  | Unreadable e => "Could not read file: " ++ e
  | TooLong n => "File has " ++ str_of_nat n ++ " lines (max 1000 allowed)"
  | FileName f => "File name '" ++ f ++ "' should be camelCase"
  | HeaderTypes ts =>
      "Header has " ++ str_of_nat (length ts) ++ " types (only 1 allowed): "
      ++ String.concat ", " ts
  | SourceTypes ts =>
      "Source file has " ++ str_of_nat (length ts)
      ++ " type definitions (none allowed): " ++ String.concat ", " ts
  | StructName n => "Struct '" ++ n ++ "' should be PascalCase"
  | ClassName n => "Class '" ++ n ++ "' should be PascalCase"
  | EnumName n => "Enum '" ++ n ++ "' should be PascalCase"
  | VarShort n => "Variable '" ++ n ++ "' is too short (use descriptive names)"
  | VarCase n => "Variable '" ++ n ++ "' should be camelCase"
  | FuncName n => "Function '" ++ n ++ "' should be camelCase"
  end%string.

(** What [open(filepath).read()] gives: the text, or an exception and
    the text [str(e)] of it. *)
Inductive read_result : Type :=
| Content (content : string)
| ReadError (e : exn) (text : string).

(** A [for] loop whose body can raise. *)
Fixpoint for_each {X S : Type} (l : list X) (body : S -> X -> result S) (s : S)
    : result S :=
  match l with
  | [] => Ok s
  | x :: l' => s' <- body s x ;; for_each l' body s'
  end.

(** The loop that removes duplicates: [seen] and [all_types] so far. *)
Fixpoint dedup_loop (ts seen all_types : list string) : list string :=
  match ts with
  | [] => all_types
  | t :: ts' =>
      if negb (str_in t seen) then dedup_loop ts' (t :: seen) (all_types ++ [t])
      else dedup_loop ts' seen all_types
  end.

Definition pascal_loop (mk : string -> violation) (names : list string)
    (violations : list violation) : list violation :=
  fold_left (fun vs name => if negb (is_pascal_case name) then vs ++ [mk name] else vs)
            names violations.

(** Body of the loop over the matches of a variable pattern. *)
Definition var_body (st : list string * list violation) (m : rmatch)
    : result (list string * list violation) :=
  let '(seen_vars, violations) := st in
  let var_name := group1 m in
  if str_in var_name seen_vars then Ok st
  else
    let seen_vars := var_name :: seen_vars in
    if String.length var_name =? 1 then Ok (seen_vars, violations ++ [VarShort var_name])
    else
      camel <- is_camel_case var_name ;;
      if negb camel then Ok (seen_vars, violations ++ [VarCase var_name])
      else Ok (seen_vars, violations).

Definition var_patterns : list regex :=
  [AUTO_VAR_PATTERN; CONST_REF_VAR_PATTERN; BASIC_TYPE_VAR_PATTERN].

(** Body of the loop over the matches of [FUNCTION_PATTERN]. *)
Definition func_body (all_types : list string) (violations : list violation)
    (m : rmatch) : result (list violation) :=
  let func_name := group1 m in
  if str_in func_name all_types || startswith func_name "~" then Ok violations
  else
    let match_text := m_group0 m in
    if contains (func_name ++ "::" ++ func_name ++ "(") match_text
       || contains (func_name ++ "::" ++ func_name ++ " (") match_text
    then Ok violations
    else if String.eqb func_name "main" then Ok violations
    else if startswith func_name "operator" then Ok violations
    else
      camel <- is_camel_case func_name ;;
      if negb camel then Ok (violations ++ [FuncName func_name])
      else Ok violations.

Definition line_count_of (content : string) : nat := count_char newline content + 1.

Definition is_header (filepath : string) : bool :=
  endswith filepath ".hpp" || endswith filepath ".h".
Definition is_source (filepath : string) : bool :=
  endswith filepath ".cpp" || endswith filepath ".c".

Definition check_file_violations (filepath : string) (content : string)
    : result (list violation) :=
  let violations := [] in
  let is_header := is_header filepath in
  let is_source := is_source filepath in
  let filename := basename filepath in
  let line_count := line_count_of content in
  let violations :=
    if 1000 <? line_count then violations ++ [TooLong line_count] else violations in
  camel <- is_camel_case filename ;;
  let violations :=
    if negb camel then violations ++ [FileName filename] else violations in
  structs <- find_definitions content STRUCT_PATTERN ;;
  classes <- find_definitions content CLASS_PATTERN ;;
  enums <- find_definitions content ENUM_PATTERN ;;
  let all_types := dedup_loop (structs ++ classes ++ enums) [] [] in
  let violations :=
    if is_header then
      if 1 <? length all_types then violations ++ [HeaderTypes all_types]
      else violations
    else if is_source then
      if 0 <? length all_types then violations ++ [SourceTypes all_types]
      else violations
    else violations in
  let violations := pascal_loop StructName structs violations in
  let violations := pascal_loop ClassName classes violations in
  let violations := pascal_loop EnumName enums violations in
  st <- for_each var_patterns
          (fun st pattern => for_each (finditer pattern content) var_body st)
          ([], violations) ;;
  let violations := snd st in
  for_each (finditer FUNCTION_PATTERN content) (func_body all_types) violations.

Definition check_file (filepath : string) (rd : read_result) : result (list string) :=
  match rd with
  | ReadError _ text => Ok [message (Unreadable text)]
  | Content content =>
      violations <- check_file_violations filepath content ;;
      Ok (map message violations)
  end.

(** [filepath.endswith(('.cpp', '.hpp', '.c', '.h'))]. *)
Definition is_checked (filepath : string) : bool :=
  endswith filepath ".cpp" || endswith filepath ".hpp"
  || endswith filepath ".c" || endswith filepath ".h".

(** ** Values of the Python runtime, as [json] builds and reads them *)

(** A [float]: a finite value [m * 2^e], an infinity or a NaN. *)
Inductive pyfloat : Type :=
| Finite (m e : Z)
| Inf (negative : bool)
| NaN.

(** A [str] inside a decoded value is a list of code points: an escape
    can name any of them. *)
Definition pystr : Type := list N.

Definition codepoints (s : string) : pystr := map N_of_ascii (list_ascii_of_string s).

Fixpoint pystr_eqb (a b : pystr) : bool :=
  match a, b with
  | [], [] => true
  | x :: a', y :: b' => N.eqb x y && pystr_eqb a' b'
  | _, _ => false
  end.

#[local] Unset Elimination Schemes.
Inductive pyval : Type :=
| PNone
| PBool (b : bool)
| PInt (z : Z)
| PFloat (f : pyfloat)
| PStr (s : pystr)
| PList (l : list pyval)
| PDict (d : list (pystr * pyval)).
#[local] Set Elimination Schemes.

(** A [dict] keeps its keys in the order they were first set. *)
Fixpoint dict_get {V : Type} (d : list (pystr * V)) (k : pystr) : option V :=
  match d with
  | [] => None
  | (k', v) :: d' => if pystr_eqb k' k then Some v else dict_get d' k
  end.

Fixpoint dict_set {V : Type} (d : list (pystr * V)) (k : pystr) (v : V)
    : list (pystr * V) :=
  match d with
  | [] => [(k, v)]
  | (k', v') :: d' =>
      if pystr_eqb k' k then (k', v) :: d' else (k', v') :: dict_set d' k v
  end.

(** [x.get(k, default)]: only a [dict] has the method. *)
Definition py_get (x : pyval) (k : pystr) (default : pyval) : result pyval :=
  match x with
  | PDict d => Ok match dict_get d k with Some v => v | None => default end
  | _ => Raise AttributeError
  end.

(** [x[k] = v] on a [dict]. *)
Definition py_setitem (x : pyval) (k : pystr) (v : pyval) : result pyval :=
  match x with
  | PDict d => Ok (PDict (dict_set d k v))
  | _ => Raise AttributeError
  end.

Definition float_is_zero (f : pyfloat) : bool :=
  match f with Finite m _ => (m =? 0)%Z | _ => false end.

(** Truth value of an object in a condition. *)
Definition truthy (x : pyval) : bool :=
  match x with
  | PNone => false
  | PBool b => b
  | PInt z => negb (z =? 0)%Z
  | PFloat f => negb (float_is_zero f)
  | PStr s => negb (match s with [] => true | _ => false end)
  | PList l => negb (match l with [] => true | _ => false end)
  | PDict d => negb (match d with [] => true | _ => false end)
  end.

(** [==] between floats compares the values; a NaN equals nothing. *)
Definition float_eqb (f g : pyfloat) : bool :=
  match f, g with
  | Finite m e, Finite m' e' =>
      let k := Z.min e e' in
      (m * 2 ^ (e - k) =? m' * 2 ^ (e' - k))%Z
  | Inf a, Inf b => Bool.eqb a b
  | _, _ => false
  end.

(** [x == f] for a float [f]: numbers (and [bool], which is an [int])
    compare by value, anything else is unequal. *)
Definition eq_float (x : pyval) (f : pyfloat) : bool :=
  match x with
  | PFloat g => float_eqb g f
  | PInt z => float_eqb (Finite z 0) f
  | PBool b => float_eqb (Finite (if b then 1 else 0) 0) f
  | _ => false
  end.

(** ** The JSON decoder of the standard library ([json.load])

    After [json.decoder] and [json.scanner]: white space is blank, tab,
    line feed and carriage return; strings are strict (no control
    character); [NaN], [Infinity] and [-Infinity] are accepted.

    Two limits of the interpreter stop the decoder with an error of
    their own.  The conversion of an integer literal to an [int] raises
    ValueError when the literal has more digits than
    [sys.get_int_max_str_digits()] (4300 unless set otherwise, 0 for no
    limit; literals of up to 640 digits are never refused).  Entering an
    array or an object is a recursive call of the scanner
    ([Py_EnterRecursiveCall]), which raises RecursionError when the
    recursion limit is met: [recursion_room] is the number of arrays and
    objects, one inside the other, that the scanner can enter when
    [json.load] is called.  A JSONDecodeError is an object built by
    Python code, which takes [error_cost] levels of recursion (3 in
    CPython 3.11) from where it is raised; without them the error is a
    RecursionError.  It is raised by the scanner where it stands (a
    delimiter or a string is wrong), by [raw_decode], one level above
    the scanner, on the StopIteration of the scanner (a value is
    missing), or by [decode], one level above [raw_decode] (text after
    the value).  The model was compared with the [json] module of
    CPython 3.11 on texts at and around both limits. *)

Record interpreter : Type := Interpreter {
  int_max_str_digits : nat;
  recursion_room : nat;
  error_cost : nat
}.

(** [PyLong_FromString] refuses the digits of a literal. *)
Definition too_many_digits (limit digits : nat) : bool :=
  (640 <? digits) && (0 <? limit) && (limit <? digits).

Definition json_ws (c : ascii) : bool :=
  Ascii.eqb c " " || Ascii.eqb c "009" || Ascii.eqb c "010" || Ascii.eqb c "013".

Fixpoint skip_ws (s : list ascii) : list ascii :=
  match s with
  | c :: s' => if json_ws c then skip_ws s' else s
  | [] => []
  end.

(** [s] after the prefix [p], when it starts with it. *)
Fixpoint after_prefix (p s : list ascii) : option (list ascii) :=
  match p, s with
  | [], _ => Some s
  | x :: p', y :: s' => if Ascii.eqb x y then after_prefix p' s' else None
  | _ :: _, [] => None
  end.
Definition after (p : string) (s : list ascii) : option (list ascii) :=
  after_prefix (list_ascii_of_string p) s.

Definition hex_value (c : ascii) : option N :=
  if ascii_digit c then Some (N_of_ascii c - 48)%N
  else if in_range 97 102 c then Some (N_of_ascii c - 87)%N
  else if in_range 65 70 c then Some (N_of_ascii c - 55)%N
  else None.

Definition hex4 (a b c d : ascii) : option N :=
  match hex_value a, hex_value b, hex_value c, hex_value d with
  | Some x, Some y, Some z, Some w => Some (((x * 16 + y) * 16 + z) * 16 + w)%N
  | _, _, _, _ => None
  end.

(** The character a one-letter escape stands for. *)
Definition dquote : ascii := "034"%char.
Definition bslash : ascii := "092"%char.

Definition backslash (c : ascii) : option N :=
  if Ascii.eqb c dquote || Ascii.eqb c bslash || Ascii.eqb c "/" then Some (N_of_ascii c)
  else if Ascii.eqb c "b" then Some 8%N
  else if Ascii.eqb c "f" then Some 12%N
  else if Ascii.eqb c "n" then Some 10%N
  else if Ascii.eqb c "r" then Some 13%N
  else if Ascii.eqb c "t" then Some 9%N
  else None.

(** [py_scanstring], from the character after the opening quote:
    the string and the text after the closing quote. *)
Fixpoint scanstring (s : list ascii) (acc : pystr) : result (pystr * list ascii) :=
  match s with
  | [] => Raise JSONDecodeError
  | c :: s1 =>
      if Ascii.eqb c dquote then Ok (acc, s1)
      else if Ascii.eqb c bslash then
        match s1 with
        | [] => Raise JSONDecodeError
        | esc :: s2 =>
            if Ascii.eqb esc "u" then
              match s2 with
              | h1 :: h2 :: h3 :: h4 :: s3 =>
                  match hex4 h1 h2 h3 h4 with
                  | None => Raise JSONDecodeError
                  | Some uni =>
                      if ((55296 <=? uni) && (uni <=? 56319))%N then
                        (* a high surrogate: a low one may follow *)
                        match s3 with
                        | b :: u :: s4 =>
                            if Ascii.eqb b bslash && Ascii.eqb u "u" then
                              match s4 with
                              | g1 :: g2 :: g3 :: g4 :: s5 =>
                                  match hex4 g1 g2 g3 g4 with
                                  | None => Raise JSONDecodeError
                                  | Some uni2 =>
                                      if ((56320 <=? uni2) && (uni2 <=? 57343))%N then
                                        scanstring s5
                                          (acc ++ [65536 + ((uni - 55296) * 1024
                                                            + (uni2 - 56320))]%N)
                                      else scanstring s3 (acc ++ [uni])
                                  end
                              | _ => Raise JSONDecodeError
                              end
                            else scanstring s3 (acc ++ [uni])
                        | _ => scanstring s3 (acc ++ [uni])
                        end
                      else scanstring s3 (acc ++ [uni])
                  end
              | _ => Raise JSONDecodeError
              end
            else
              match backslash esc with
              | Some ch => scanstring s2 (acc ++ [ch])
              | None => Raise JSONDecodeError
              end
        end
      else if code c <? 32 then Raise JSONDecodeError
      else scanstring s1 (acc ++ [N_of_ascii c])
  end.

(** The longest prefix of characters in a class, and what follows. *)
Fixpoint span_of (p : ascii -> bool) (s : list ascii) : list ascii * list ascii :=
  match s with
  | c :: s' =>
      if p c then let (a, b) := span_of p s' in (c :: a, b) else ([], s)
  | [] => ([], [])
  end.

Definition digits_value (l : list ascii) : Z :=
  fold_left (fun acc c => acc * 10 + Z.of_nat (code c - 48))%Z l 0%Z.

Definition round_half_even (num den : Z) : Z :=
  let q := (num / den)%Z in
  let r := (num mod den)%Z in
  if (2 * r <? den)%Z then q
  else if (den <? 2 * r)%Z then (q + 1)%Z
  else if Z.even q then q else (q + 1)%Z.

(** The [float] nearest to [num / den], both positive. *)
Definition float_of_ratio (num den : Z) : pyfloat :=
  let l := (Z.log2 num - Z.log2 den)%Z in
  let below :=
    if (0 <=? l)%Z then (num <? den * 2 ^ l)%Z else (num * 2 ^ (- l) <? den)%Z in
  let e := if below then (l - 1)%Z else l in
  let u := Z.max (e - 52) (-1074) in
  let m :=
    if (0 <=? u)%Z then round_half_even num (den * 2 ^ u)
    else round_half_even (num * 2 ^ (- u)) den in
  if (971 <? u)%Z || ((u =? 971)%Z && (m =? 2 ^ 53)%Z) then Inf false
  else Finite m u.

(** [float(text)] for the decimal [digits * 10^exp10]. *)
Definition float_of_decimal (negative : bool) (digits exp10 : Z) : pyfloat :=
  if (digits =? 0)%Z then Finite 0 0
  else
    let f := if (0 <=? exp10)%Z then float_of_ratio (digits * 10 ^ exp10) 1
             else float_of_ratio digits (10 ^ (- exp10)) in
    match f with
    | Finite m e => Finite (if negative then - m else m) e
    | Inf _ => Inf negative
    | NaN => NaN
    end.

(** [NUMBER_RE], part by part: an optional sign, the integer part, an
    optional fraction and an optional exponent; a part that does not
    match in full is left out. *)
Definition number_sign (s : list ascii) : bool * list ascii :=
  match s with
  | c :: s' => if Ascii.eqb c "-" then (true, s') else (false, s)
  | [] => (false, s)
  end.

Definition number_integer (s : list ascii) : option (list ascii * list ascii) :=
  match s with
  | c :: s' =>
      if Ascii.eqb c "0" then Some ([c], s')
      else if ascii_digit c then
        let (ds, s2) := span_of ascii_digit s' in Some (c :: ds, s2)
      else None
  | [] => None
  end.

Definition number_frac (s : list ascii) : option (list ascii) * list ascii :=
  match s with
  | c :: s' =>
      if Ascii.eqb c "." then
        match span_of ascii_digit s' with
        | ([], _) => (None, s)
        | (fd, s2) => (Some fd, s2)
        end
      else (None, s)
  | [] => (None, s)
  end.

Definition exponent_sign (s : list ascii) : bool * list ascii :=
  match s with
  | c :: s' =>
      if Ascii.eqb c "-" then (true, s')
      else if Ascii.eqb c "+" then (false, s')
      else (false, s)
  | [] => (false, s)
  end.

Definition number_exp (s : list ascii) : option Z * list ascii :=
  match s with
  | c :: s' =>
      if Ascii.eqb c "e" || Ascii.eqb c "E" then
        let (minus, s1) := exponent_sign s' in
        match span_of ascii_digit s1 with
        | ([], _) => (None, s)
        | (ed, s2) =>
            (Some (if minus then (- digits_value ed)%Z else digits_value ed), s2)
        end
      else (None, s)
  | [] => (None, s)
  end.

(** [NUMBER_RE.match] and the conversion of [scan_once]: an [int] when
    there is neither fraction nor exponent, a [float] otherwise. *)
Definition match_number (s : list ascii) : option (pyval * list ascii) :=
  let (negative, s1) := number_sign s in
  match number_integer s1 with
  | None => None
  | Some (ip, s2) =>
      let (frac, s3) := number_frac s2 in
      let (expo, s4) := number_exp s3 in
      match frac, expo with
      | None, None =>
          Some (PInt (if negative then (- digits_value ip)%Z else digits_value ip), s4)
      | _, _ =>
          let fd := match frac with Some fd => fd | None => [] end in
          let ex := match expo with Some ex => ex | None => 0%Z end in
          Some (PFloat (float_of_decimal negative (digits_value (ip ++ fd))
                          (ex - Z.of_nat (length fd))), s4)
      end
  end.

(** The digits of the literal that [NUMBER_RE] matches when it is
    converted with [int] (no fraction, no exponent); 0 otherwise. *)
Definition integer_digits (s : list ascii) : nat :=
  let (_, s1) := number_sign s in
  match number_integer s1 with
  | None => 0
  | Some (ip, s2) =>
      let (frac, s3) := number_frac s2 in
      let (expo, _) := number_exp s3 in
      match frac, expo with
      | None, None => length ip
      | _, _ => 0
      end
  end.

(** The decoder proper.  [Exhausted] is the bound of the recursion of the
    model, which [decode_fuel_enough] shows is never met from
    [json_loads]; [room] is what is left of [recursion_room]. *)
Inductive outcome (A : Type) : Type :=
| Done (a : A)
| Fail (e : exn)
| Exhausted.
Arguments Done {A} a.
Arguments Fail {A} e.
Arguments Exhausted {A}.

Inductive mode : Type :=
| MValue
| MArray (values : list pyval)
| MObject (pairs : list (pystr * pyval)).

(** [raise_stop_iteration]: a value is expected. *)
Definition expecting {A : Type} : outcome A := Fail StopIteration.

(** [raise_errmsg], with [room] levels of recursion left. *)
Definition errmsg {A : Type} (ip : interpreter) (room : nat) : outcome A :=
  Fail (if error_cost ip <=? room then JSONDecodeError else RecursionError).

(** [_parse_constant]: the value of [NaN], [Infinity] or [-Infinity] is
    given by a call of [parse_constant], one level of recursion. *)
Definition constant {A : Type} (room : nat) (r : A) : outcome A :=
  match room with
  | 0 => Fail RecursionError
  | S _ => Done r
  end.

(** [MValue]: [scan_once] at the text; [MArray]: the loop of [JSONArray]
    at an element; [MObject]: the loop of [JSONObject] at the quote of a
    key. *)
Fixpoint decode (ip : interpreter) (fuel room : nat) (md : mode) (s : list ascii)
    : outcome (pyval * list ascii) :=
  match fuel with
  | 0 => Exhausted
  | S fuel' =>
      match md with
      | MValue =>
          match s with
          | [] => expecting
          | c :: s1 =>
              if Ascii.eqb c dquote then
                match scanstring s1 [] with
                | Ok (str, s2) => Done (PStr str, s2)
                | Raise _ => errmsg ip room
                end
              else if Ascii.eqb c "{" then
                match room with
                | 0 => Fail RecursionError
                | S room' =>
                    match skip_ws s1 with
                    | [] => errmsg ip room'
                    | d :: s2 =>
                        if Ascii.eqb d "}" then Done (PDict [], s2)
                        else decode ip fuel' room' (MObject []) (d :: s2)
                    end
                end
              else if Ascii.eqb c "[" then
                match room with
                | 0 => Fail RecursionError
                | S room' =>
                    match skip_ws s1 with
                    | [] => expecting
                    | d :: s2 =>
                        if Ascii.eqb d "]" then Done (PList [], s2)
                        else decode ip fuel' room' (MArray []) (d :: s2)
                    end
                end
              else
                match after "null" s, after "true" s, after "false" s with
                | Some s2, _, _ => Done (PNone, s2)
                | _, Some s2, _ => Done (PBool true, s2)
                | _, _, Some s2 => Done (PBool false, s2)
                | None, None, None =>
                    match match_number s with
                    | Some r =>
                        if too_many_digits (int_max_str_digits ip) (integer_digits s)
                        then Fail ValueError else Done r
                    | None =>
                        match after "NaN" s, after "Infinity" s, after "-Infinity" s with
                        | Some s2, _, _ => constant room (PFloat NaN, s2)
                        | _, Some s2, _ => constant room (PFloat (Inf false), s2)
                        | _, _, Some s2 => constant room (PFloat (Inf true), s2)
                        | None, None, None => expecting
                        end
                    end
                end
          end
      | MArray values =>
          match decode ip fuel' room MValue s with
          | Done (value, s1) =>
              match skip_ws s1 with
              | [] => errmsg ip room
              | d :: s2 =>
                  if Ascii.eqb d "]" then Done (PList (values ++ [value]), s2)
                  else if Ascii.eqb d "," then
                    decode ip fuel' room (MArray (values ++ [value])) (skip_ws s2)
                  else errmsg ip room
              end
          | Fail e => Fail e
          | Exhausted => Exhausted
          end
      | MObject pairs =>
          match s with
          | [] => errmsg ip room
          | q :: s1 =>
              if negb (Ascii.eqb q dquote) then errmsg ip room
              else
                match scanstring s1 [] with
                | Raise _ => errmsg ip room
                | Ok (key, s2) =>
                    match skip_ws s2 with
                    | [] => errmsg ip room
                    | colon :: s3 =>
                        if negb (Ascii.eqb colon ":") then errmsg ip room
                        else
                          match decode ip fuel' room MValue (skip_ws s3) with
                          | Done (value, s4) =>
                              match skip_ws s4 with
                              | [] => errmsg ip room
                              | d :: s5 =>
                                  if Ascii.eqb d "}" then
                                    Done (PDict (dict_set pairs key value), s5)
                                  else if Ascii.eqb d "," then
                                    decode ip fuel' room
                                           (MObject (dict_set pairs key value))
                                           (skip_ws s5)
                                  else errmsg ip room
                              end
                          | Fail e => Fail e
                          | Exhausted => Exhausted
                          end
                    end
                end
          end
      end
  end.

(** [json.loads]: one value, white space around it and nothing else. *)
Definition json_loads (ip : interpreter) (text : string) : result pyval :=
  let s := skip_ws (list_ascii_of_string text) in
  match decode ip (2 * length s + 1) (recursion_room ip) MValue s with
  | Done (obj, s') =>
      match skip_ws s' with
      | [] => Ok obj
      | _ :: _ =>
          Raise (if error_cost ip <=? recursion_room ip + 2
                 then JSONDecodeError else RecursionError)
      end
  | Fail StopIteration =>
      Raise (if error_cost ip <=? recursion_room ip + 1
             then JSONDecodeError else RecursionError)
  | Fail e => Raise e
  | Exhausted => Raise JSONDecodeError
  end.

(** ** Result cache and the loop of [main] *)

Definition CACHE_FILE : string := "build/.conventions_cache.json".

(** A regular file: [os.path.getmtime] and what reading it gives. *)
Record file : Type := File {
  f_mtime : pyfloat;
  f_read : read_result
}.

(** The regular files, by path ([os.path.isfile] is [Some]). *)
Definition filesystem : Type := string -> option file.

Definition load_cache (ip : interpreter) (fs : filesystem) : result pyval :=
  match fs CACHE_FILE with
  | Some f =>
      match f_read f with
      | Content text => json_loads ip text
      | ReadError e _ => Raise e
      end
  | None => Ok (PDict [])
  end.

Definition key_mtime : pystr := codepoints "mtime".
Definition key_violations : pystr := codepoints "violations".

(** The list of messages as the object stored in the cache. *)
Definition py_messages (msgs : list string) : pyval :=
  PList (map (fun m => PStr (codepoints m)) msgs).

(** [if violations: all_violations[filepath] = violations]. *)
Definition record_violations (all_violations : list (pystr * pyval))
    (filepath : string) (violations : pyval) : list (pystr * pyval) :=
  if truthy violations then dict_set all_violations (codepoints filepath) violations
  else all_violations.

(** One turn of the loop of [main] over the arguments; the state is the
    cache and [all_violations]. *)
Definition main_file (fs : filesystem) (st : pyval * list (pystr * pyval))
    (filepath : string) : result (pyval * list (pystr * pyval)) :=
  let '(cache, all_violations) := st in
  match fs filepath with
  | Some f =>
      if is_checked filepath then
        let mtime := f_mtime f in
        cached <- py_get cache (codepoints filepath) PNone ;;
        valid <- (if truthy cached then
                    stored <- py_get cached key_mtime PNone ;;
                    Ok (eq_float stored mtime)
                  else Ok false) ;;
        if valid then
          violations <- py_get cached key_violations (PList []) ;;
          Ok (cache, record_violations all_violations filepath violations)
        else
          msgs <- check_file filepath (f_read f) ;;
          let violations := py_messages msgs in
          cache' <- py_setitem cache (codepoints filepath)
                      (PDict [(key_mtime, PFloat mtime); (key_violations, violations)]) ;;
          Ok (cache', record_violations all_violations filepath violations)
      else Ok st
  | None => Ok st
  end.

(** Where [main] stands when the part of it that is modelled ends: it
    has returned 1 after the usage line, or it is about to call
    [save_cache] on the cache, with [all_violations] for the report. *)
Inductive progress : Type :=
| Usage
| Saving (cache : pyval) (all_violations : list (pystr * pyval)).

(** [main] from its first line to the call of [save_cache], on the
    arguments after the script name.  An exception raised here ends
    [main], which catches none.  What [save_cache] and the report do
    afterwards is not part of the model. *)
Definition main_until_save (ip : interpreter) (argv : list string)
    (fs : filesystem) : result progress :=
  match argv with
  | [] => Ok Usage
  | _ :: _ =>
      cache <- load_cache ip fs ;;
      st <- for_each argv (main_file fs) (cache, []) ;;
      Ok (Saving (fst st) (snd st))
  end.

(** * Definitions used by the statements *)

(** [c'] is [c] moved forward over some characters. *)
Definition extends (c c' : cursor) : Prop :=
  exists s, rest c = s ++ rest c' /\ pos c' = pos c + length s.

(** Identifiers, as [[A-Za-z_][A-Za-z0-9_]*] matches them. *)
Definition is_ident_chars (l : list ascii) : bool :=
  match l with
  | a :: l' => ident_start a && forallb ident_char l'
  | [] => false
  end.
Definition is_ident (s : string) : bool := is_ident_chars (list_ascii_of_string s).

(** [c'] is [c] moved forward over characters [s] with [p s]. *)
Definition span (p : list ascii -> Prop) (c c' : cursor) : Prop :=
  exists s, p s /\ rest c = s ++ rest c' /\ pos c' = pos c + length s.

(** Every group of the pattern wraps an identifier. *)
Fixpoint grp_ident (r : regex) : Prop :=
  match r with
  | Grp r' => r' = ident_re
  | Seq r1 r2 | Alt r1 r2 => grp_ident r1 /\ grp_ident r2
  | Star r' => grp_ident r'
  | _ => True
  end.

(** The group takes part in every match of the pattern. *)
Fixpoint sets_group (r : regex) : bool :=
  match r with
  | Grp _ => true
  | Seq r1 r2 => sets_group r1 || sets_group r2
  | Alt r1 r2 => sets_group r1 && sets_group r2
  | _ => false
  end.

(** The group has captured an identifier. *)
Definition good_cap (cap : option string) : Prop :=
  exists s, cap = Some s /\ is_ident s = true.

(** The cursor is at an offset of the text. *)
Definition at_offset (content : string) (c : cursor) : Prop :=
  exists pre, list_ascii_of_string content = pre ++ rest c /\ pos c = length pre.

(** What holds of every match that [finditer] yields. *)
Definition match_ok (content : string) (r : regex) (m : rmatch) : Prop :=
  m_start m <= String.length content
  /\ (sets_group r = true -> exists s, m_group1 m = Some s /\ is_ident s = true).

(** The patterns that capture a name always capture an identifier. *)
Definition captures_ident (r : regex) : Prop := grp_ident r /\ sets_group r = true.

(** The loop over a whole list of characters, without the bound check. *)
Fixpoint scan_prefix (ns : list nat) (i : nat) (chars : list ascii)
    (st : Z * list bool) : Z * list bool :=
  match chars with
  | [] => st
  | ch :: chars' => scan_prefix ns (S i) chars' (scan_step ns i ch st)
  end.

(** The braces that are open at an offset, innermost first, by their
    positions: what "enclosing braces" means on raw text. *)
Definition brace_step (i : nat) (ch : ascii) (open : list nat) : list nat :=
  if Ascii.eqb ch "{" then i :: open
  else if Ascii.eqb ch "}" then tl open
  else open.

Fixpoint open_braces (i : nat) (chars : list ascii) (open : list nat) : list nat :=
  match chars with
  | [] => open
  | ch :: chars' => open_braces (S i) chars' (brace_step i ch open)
  end.

Definition enclosing_braces (content : string) (pos : nat) : list nat :=
  open_braces 0 (firstn pos (list_ascii_of_string content)) [].

(** Those of them that do not open a namespace. *)
Definition type_braces (ns : list nat) (open : list nat) : list nat :=
  filter (fun p => negb (is_namespace_brace ns p)) open.

(** The state of the loop of [get_type_nesting_depth] when the braces
    [open] are open: their number without the namespace braces, and the
    flag of each. *)
Definition tracker_state (ns : list nat) (open : list nat) : Z * list bool :=
  (Z.of_nat (length (type_braces ns open)), map (is_namespace_brace ns) open).

(** The depth as a total function of the text and an offset in it. *)
Definition depth_at (content : string) (pos : nat) : Z :=
  Z.of_nat (length (type_braces (namespace_brace_positions content)
                                (enclosing_braces content pos))).

(** The matches [find_definitions] keeps, and their names. *)
Definition top_level_definition (content : string) (m : rmatch) : bool :=
  is_definition_end m && (depth_at content (m_start m) =? 0)%Z.

Definition type_names (content : string) (pattern : regex) : list string :=
  map group1 (filter (top_level_definition content) (finditer pattern content)).

(** The casing test on a name that is no path: no stem to take. *)
Definition plain_camel (s : string) : bool :=
  match s with
  | String c _ => negb (isupper c) && negb (has_underscore s)
  | EmptyString => false
  end.

(** Duplicates removed, the first occurrence of each name kept. *)
Fixpoint dedup_first (l : list string) : list string :=
  match l with
  | [] => []
  | x :: l' => x :: filter (fun y => negb (String.eqb y x)) (dedup_first l')
  end.

(** The names of [l] that are not in [seen], each once. *)
Fixpoint new_names (seen l : list string) : list string :=
  match l with
  | [] => []
  | x :: l' =>
      if str_in x seen then new_names seen l' else x :: new_names (x :: seen) l'
  end.

(** What each rule of [check_file] adds, in the order of the rules:
    length, file name, type count, type names, variables, functions. *)
Definition length_part (content : string) : list violation :=
  if 1000 <? line_count_of content then [TooLong (line_count_of content)] else [].

Definition name_part (filepath : string) (camel : bool) : list violation :=
  if negb camel then [FileName (basename filepath)] else [].

Definition count_part (filepath : string) (all_types : list string) : list violation :=
  if is_header filepath then
    if 1 <? length all_types then [HeaderTypes all_types] else []
  else if is_source filepath then
    if 0 <? length all_types then [SourceTypes all_types] else []
  else [].

Definition pascal_part (mk : string -> violation) (names : list string)
    : list violation :=
  map mk (filter (fun name => negb (is_pascal_case name)) names).

(** The [all_types] of [check_file]. *)
Definition all_types_of (content : string) : list string :=
  dedup_first (type_names content STRUCT_PATTERN ++ type_names content CLASS_PATTERN
               ++ type_names content ENUM_PATTERN).

(** The matches of the three variable patterns, in the order of the loop. *)
Definition var_matches (content : string) : list rmatch :=
  flat_map (fun pattern => finditer pattern content) var_patterns.

(** The names the variable rule evaluates: each captured name once. *)
Definition evaluated_names (content : string) : list string :=
  dedup_first (map group1 (var_matches content)).

(** What an evaluated name adds. *)
Definition classify_var (var_name : string) : list violation :=
  if String.length var_name =? 1 then [VarShort var_name]
  else match is_camel_case var_name with
       | Ok false => [VarCase var_name]
       | _ => []
       end.

Definition var_part (content : string) : list violation :=
  flat_map classify_var (evaluated_names content).

(** The exemptions of the function rule. *)
Definition constructor_form (func_name match_text : string) : bool :=
  contains (func_name ++ "::" ++ func_name ++ "(") match_text
  || contains (func_name ++ "::" ++ func_name ++ " (") match_text.

Definition exempt (all_types : list string) (m : rmatch) : bool :=
  str_in (group1 m) all_types
  || startswith (group1 m) "~"
  || constructor_form (group1 m) (m_group0 m)
  || String.eqb (group1 m) "main"
  || startswith (group1 m) "operator".

(** What a match of the function pattern adds. *)
Definition classify_func (all_types : list string) (m : rmatch) : list violation :=
  if exempt all_types m then []
  else match is_camel_case (group1 m) with
       | Ok false => [FuncName (group1 m)]
       | _ => []
       end.

Definition func_part (content : string) (all_types : list string) : list violation :=
  flat_map (classify_func all_types) (finditer FUNCTION_PATTERN content).

(** The rule that adds a violation. *)
Inductive rule : Type :=
| ReadRule
| LengthRule
| FileNameRule
| TypeCountRule
| TypeNameRule
| VariableRule
| FunctionRule.

Definition rule_of (v : violation) : rule :=
  match v with
  | Unreadable _ => ReadRule
  | TooLong _ => LengthRule
  | FileName _ => FileNameRule
  | HeaderTypes _ | SourceTypes _ => TypeCountRule
  | StructName _ | ClassName _ | EnumName _ => TypeNameRule
  | VarShort _ | VarCase _ => VariableRule
  | FuncName _ => FunctionRule
  end.

Definition rule_eqb (a b : rule) : bool :=
  match a, b with
  | ReadRule, ReadRule | LengthRule, LengthRule | FileNameRule, FileNameRule
  | TypeCountRule, TypeCountRule | TypeNameRule, TypeNameRule
  | VariableRule, VariableRule | FunctionRule, FunctionRule => true
  | _, _ => false
  end.

(** The violations of a list that one rule added, in order. *)
Definition by_rule (r : rule) (vs : list violation) : list violation :=
  filter (fun v => rule_eqb (rule_of v) r) vs.

(** All the violations of a readable file, [camel] being the outcome of
    the file-name test. *)
Definition all_parts (filepath content : string) (camel : bool) : list violation :=
  length_part content ++ name_part filepath camel
  ++ count_part filepath (all_types_of content)
  ++ pascal_part StructName (type_names content STRUCT_PATTERN)
  ++ pascal_part ClassName (type_names content CLASS_PATTERN)
  ++ pascal_part EnumName (type_names content ENUM_PATTERN)
  ++ var_part content
  ++ func_part content (all_types_of content).


(** Sample inputs of the statements about the cache. *)
Definition quoted (s : string) : string := String dquote (s ++ String dquote "").

Definition sample_cache_text : string :=
  ("{" ++ quoted "src/a.h" ++ ": {" ++ quoted "mtime" ++ ": 1700000000.5, "
   ++ quoted "violations" ++ ": [" ++ quoted "File has 1200 lines (max 1000 allowed)"
   ++ "]}}")%string.

Definition sample_cache : list (pystr * pyval) :=
  [(codepoints "src/a.h",
    PDict [(key_mtime, PFloat (Finite 7130316802097152 (-22)));
           (key_violations,
            PList [PStr (codepoints "File has 1200 lines (max 1000 allowed)")])])].

(** A file system with the header [src/a.h], last modified at [mtime],
    and a cache file with the text [cache_text]. *)
Definition sample_fs (mtime : pyfloat) (cache_text : string) : filesystem :=
  fun path =>
    if String.eqb path "src/a.h" then Some (File mtime (Content "struct A {
};
"))
    else if String.eqb path CACHE_FILE then Some (File (Finite 0 0) (Content cache_text))
    else None.

(** *** Definitions for the loop of [main] *)

(** A path the loop of [main] works on: a regular file with one of the
    four extensions. *)
Definition processed (fs : filesystem) (filepath : string) : bool :=
  match fs filepath with
  | Some _ => is_checked filepath
  | None => false
  end.

(** The entry [main] writes for a file: [{'mtime': ..., 'violations': ...}]. *)
Definition fresh_entry (mtime : pyfloat) (msgs : list string) : pyval :=
  PDict [(key_mtime, PFloat mtime); (key_violations, py_messages msgs)].

(** What the loop body decides from the cached object of a file: the
    entry to write, if any, and the violations of the file. *)
Definition entry_outcome (filepath : string) (f : file) (cached : pyval)
    : result (option pyval * pyval) :=
  valid <- (if truthy cached then
              stored <- py_get cached key_mtime PNone ;;
              Ok (eq_float stored (f_mtime f))
            else Ok false) ;;
  if valid then
    violations <- py_get cached key_violations (PList []) ;;
    Ok (None, violations)
  else
    msgs <- check_file filepath (f_read f) ;;
    Ok (Some (fresh_entry (f_mtime f) msgs), py_messages msgs).

(** [d.get(k)]. *)
Definition dict_lookup (d : list (pystr * pyval)) (k : pystr) : pyval :=
  match dict_get d k with Some v => v | None => PNone end.

(** What [all_violations] holds for a file with the messages [msgs]. *)
Definition reported (msgs : list string) : option pyval :=
  match msgs with
  | [] => None
  | _ :: _ => Some (py_messages msgs)
  end.

(** An object that has no [get] and counts as true in a condition: a
    non-empty list or string, a non-zero number, [True]. *)
Definition no_get (v : pyval) : bool :=
  match v with
  | PDict _ => false
  | _ => truthy v
  end.

(** The cached object of the path is such an object. *)
Definition bad_entry (d : list (pystr * pyval)) (filepath : string) : bool :=
  no_get (dict_lookup d (codepoints filepath)).

(** The path is one of [done] that the loop works on. *)
Definition covered (fs : filesystem) (done : list string) (filepath : string)
    : bool :=
  existsb (String.eqb filepath) done && processed fs filepath.

(** The cache and the report hold exactly the results of [check_file]
    for the paths of [done] the loop works on. *)
Definition results_of (fs : filesystem) (done : list string)
    (d av : list (pystr * pyval)) : Prop :=
  (forall p, covered fs done p = true ->
     exists f msgs,
       fs p = Some f /\ check_file p (f_read f) = Ok msgs
       /\ dict_get d (codepoints p) = Some (fresh_entry (f_mtime f) msgs)
       /\ dict_get av (codepoints p) = reported msgs)
  /\ (forall k, (forall p, covered fs done p = true -> k <> codepoints p) ->
        dict_get d k = None /\ dict_get av k = None).

(** The loop body leaves the state as it is. *)
Definition settled (fs : filesystem) (st : pyval * list (pystr * pyval))
    (filepath : string) : Prop :=
  main_file fs st filepath = Ok st.

(** Case analysis on every test and match of a hypothesis. *)
Ltac split_cases H :=
  repeat match type of H with
         | context [if ?b then _ else _] => destruct b eqn:?
         | context [match ?x with _ => _ end] => destruct x eqn:?
         end.

(** A bound that is enough for [decode] on a text. *)
Definition fuel_needed (md : mode) (s : list ascii) : nat :=
  match md with
  | MValue => 2 * length s + 1
  | _ => 2 * length s + 2
  end.

(** The entry of a path is valid: it is there, with a stored time that
    equals the current one. *)
Definition entry_valid (d : list (pystr * pyval)) (filepath : string)
    (mtime : pyfloat) : bool :=
  match dict_get d (codepoints filepath) with
  | Some (PDict e) =>
      match dict_get e key_mtime with
      | Some stored => eq_float stored mtime
      | None => false
      end
  | _ => false
  end.

(** The exceptions [json.load] raises on a text. *)
Definition decoder_error (e : exn) : Prop :=
  e = JSONDecodeError \/ e = ValueError \/ e = RecursionError.

(** CPython 3.11 as the script meets it when nothing is set: a digit
    limit of 4300, a recursion limit of 1000 that leaves room for 992
    arrays and objects one inside the other below the frames from the
    module to [raw_decode], and three levels for an error. *)
Definition sample_interpreter : interpreter := Interpreter 4300 992 3.

(** A cache text that is valid JSON but holds an integer of 5000 digits. *)
Definition long_integer_text : string :=
  ("{" ++ quoted "k" ++ ": " ++ string_of_list_ascii (repeat "7"%char 5000) ++ "}")%string.

(** A cache text of 1000 opening and 1000 closing brackets. *)
Definition deep_text : string :=
  string_of_list_ascii (repeat "["%char 1000 ++ repeat "]"%char 1000).

(** [cached.get('violations', [])] of the entry of a path. *)
Definition stored_violations (d : list (pystr * pyval)) (filepath : string) : pyval :=
  match dict_get d (codepoints filepath) with
  | Some (PDict e) =>
      match dict_get e key_violations with Some v => v | None => PList [] end
  | _ => PList []
  end.

(** * Properties of the matcher *)

Lemma extends_refl c : extends c c.
Proof. exists []. simpl. split; [reflexivity | lia]. Qed.

Lemma extends_trans c1 c2 c3 : extends c1 c2 -> extends c2 c3 -> extends c1 c3.
Proof.
  intros [s1 [H1 P1]] [s2 [H2 P2]]. exists (s1 ++ s2).
  rewrite H1, H2, <- app_assoc, length_app. split; [reflexivity | lia].
Qed.

Lemma extends_step c a l :
  rest c = a :: l -> extends c (Cursor (Some a) l (S (pos c))).
Proof. intros H. exists [a]. simpl. rewrite H. split; [reflexivity | lia]. Qed.

Lemma extends_consumed c c' s :
  rest c = s ++ rest c' -> pos c' = pos c + length s ->
  consumed c c' = string_of_list_ascii s.
Proof.
  intros H P. unfold consumed. rewrite H, P.
  replace (pos c + length s - pos c) with (length s + 0) by lia.
  rewrite firstn_app_2. simpl. now rewrite app_nil_r.
Qed.

Section StarLoop.
Variable A : Type.
Variable Q : cursor -> option string -> cursor -> option string -> Prop.
Hypothesis Q_refl : forall c cap, Q c cap c cap.
Hypothesis Q_trans : forall c1 p1 c2 p2 c3 p3,
    Q c1 p1 c2 p2 -> Q c2 p2 c3 p3 -> Q c1 p1 c3 p3.
Variable step :
  cursor -> option string -> (cursor -> option string -> option A) -> option A.
Hypothesis step_inv : forall c cap k a,
    step c cap k = Some a -> exists c' cap', k c' cap' = Some a /\ Q c cap c' cap'.

Lemma star_loop_inv n : forall k c cap a,
    star_loop step k n c cap = Some a ->
    exists c' cap', k c' cap' = Some a /\ Q c cap c' cap'.
Proof.
  induction n as [|n IH]; intros k c cap a H; simpl in H.
  - exists c, cap. auto.
  - destruct (step c cap _) as [a0|] eqn:E.
    + injection H as ->. apply step_inv in E.
      destruct E as [c1 [cap1 [E HQ]]].
      destruct (pos c <? pos c1); [|discriminate].
      apply IH in E. destruct E as [c2 [cap2 [E HQ2]]].
      exists c2, cap2. split; [assumption|]. eapply Q_trans; eassumption.
    + exists c, cap. auto.
Qed.
End StarLoop.

Lemma run_cls_star A p n : forall (k : cursor -> option string -> option A) c cap a,
    star_loop (run (Cls p)) k n c cap = Some a ->
    exists c', k c' cap = Some a /\ span (fun s => forallb p s = true) c c'.
Proof.
  intros k c cap a H.
  apply star_loop_inv
    with (Q := fun c cap c' cap' =>
                 cap' = cap /\ span (fun s => forallb p s = true) c c') in H.
  - destruct H as [c' [cap' [H [-> S]]]]. eauto.
  - intros c0 cap0. split; [reflexivity|]. exists []. simpl. repeat split; lia.
  - intros c1 p1 c2 p2 c3 p3 [-> [s1 [F1 [R1 P1]]]] [-> [s2 [F2 [R2 P2]]]].
    split; [reflexivity|]. exists (s1 ++ s2).
    rewrite forallb_app, F1, F2, R1, R2, <- app_assoc, length_app.
    repeat split; lia.
  - intros c0 cap0 k0 a0 E. simpl in E.
    destruct (rest c0) as [|x l] eqn:R; [discriminate|].
    destruct (p x) eqn:Px; [|discriminate].
    eexists _, cap0. split; [exact E|]. split; [reflexivity|].
    exists [x]. simpl. rewrite Px. repeat split; [assumption | lia].
Qed.

Lemma run_ident A : forall (k : cursor -> option string -> option A) c cap a,
    run ident_re c cap k = Some a ->
    exists c', k c' cap = Some a /\ span (fun s => is_ident_chars s = true) c c'.
Proof.
  intros k c cap a H. unfold ident_re in H. simpl in H.
  destruct (rest c) as [|x l] eqn:R; [discriminate|].
  destruct (ident_start x) eqn:Px; [|discriminate].
  apply run_cls_star in H. destruct H as [c' [H [s [F [R' P']]]]].
  exists c'. split; [assumption|]. exists (x :: s). simpl in *.
  rewrite Px, F, R, R'. repeat split. lia.
Qed.

(** A match only moves forward, whatever the pattern. *)
Lemma run_extends A r :
  forall (k : cursor -> option string -> option A) c cap a,
    run r c cap k = Some a ->
    exists c' cap', k c' cap' = Some a /\ extends c c'.
Proof.
  induction r as [|x|p| | |r1 IH1 r2 IH2|r1 IH1 r2 IH2|r IH|r IH];
    intros k c cap a H; simpl in H.
  - exists c, cap. auto using extends_refl.
  - destruct (rest c) as [|y l] eqn:R; [discriminate|].
    destruct (Ascii.eqb y x); [|discriminate].
    eexists _, cap. eauto using extends_step.
  - destruct (rest c) as [|y l] eqn:R; [discriminate|].
    destruct (p y); [|discriminate].
    eexists _, cap. eauto using extends_step.
  - destruct (xorb _ _); [|discriminate]. exists c, cap. auto using extends_refl.
  - destruct (at_line_start c); [|discriminate].
    exists c, cap. auto using extends_refl.
  - apply IH1 in H. destruct H as [c1 [cap1 [H E1]]].
    apply IH2 in H. destruct H as [c2 [cap2 [H E2]]].
    exists c2, cap2. eauto using extends_trans.
  - destruct (run r1 c cap k) as [a1|] eqn:E1.
    + injection H as ->. now apply IH1 in E1.
    + now apply IH2 in H.
  - apply star_loop_inv with (Q := fun c _ c' _ => extends c c') in H;
      eauto using extends_refl, extends_trans.
  - apply IH in H. destruct H as [c1 [_ [H E]]]. eauto.
Qed.

(** The matcher only calls its continuation further on in the text. *)
Lemma star_loop_local A step n :
  (forall c cap (k k' : cursor -> option string -> option A),
      (forall c' cap', extends c c' -> k c' cap' = k' c' cap') ->
      step c cap k = step c cap k') ->
  forall c cap (k k' : cursor -> option string -> option A),
    (forall c' cap', extends c c' -> k c' cap' = k' c' cap') ->
    star_loop step k n c cap = star_loop step k' n c cap.
Proof.
  intros L. induction n as [|n IH]; intros c cap k k' E; simpl.
  - apply E, extends_refl.
  - rewrite (E c cap (extends_refl c)).
    erewrite L; [reflexivity|]. intros c' cap' X. simpl.
    destruct (pos c <? pos c'); [|reflexivity].
    apply IH. intros c2 cap2 X2. apply E. eauto using extends_trans.
Qed.

Lemma run_local A r :
  forall c cap (k k' : cursor -> option string -> option A),
    (forall c' cap', extends c c' -> k c' cap' = k' c' cap') ->
    run r c cap k = run r c cap k'.
Proof.
  induction r as [|x|p| | |r1 IH1 r2 IH2|r1 IH1 r2 IH2|r IH|r IH];
    intros c cap k k' E; simpl.
  - apply E, extends_refl.
  - destruct (rest c) as [|y l] eqn:R; [reflexivity|].
    destruct (Ascii.eqb y x); [|reflexivity]. now apply E, extends_step.
  - destruct (rest c) as [|y l] eqn:R; [reflexivity|].
    destruct (p y); [|reflexivity]. now apply E, extends_step.
  - destruct (xorb _ _); [|reflexivity]. apply E, extends_refl.
  - destruct (at_line_start c); [|reflexivity]. apply E, extends_refl.
  - apply IH1. intros c1 cap1 X1. apply IH2. intros c2 cap2 X2.
    apply E. eauto using extends_trans.
  - now rewrite (IH1 c cap k k' E), (IH2 c cap k k' E).
  - apply star_loop_local; assumption.
  - apply IH. intros c1 cap1 X1. now apply E.
Qed.

Lemma run_no_match A r c cap : run r c cap (fun _ _ => @None A) = None.
Proof.
  destruct (run r c cap (fun _ _ => None)) as [a|] eqn:E; [|reflexivity].
  apply run_extends in E. destruct E as [c' [cap' [E _]]]. discriminate.
Qed.

Lemma extends_progress c c' :
  extends c c' -> pos c < pos c' -> length (rest c') < length (rest c).
Proof. intros [s [R P]] L. rewrite R, length_app. lia. Qed.

Lemma extends_at_end c c' : extends c c' -> rest c = [] -> (pos c <? pos c') = false.
Proof.
  intros [s [R P]] E. rewrite E in R. destruct s; [|discriminate].
  simpl in P. apply Nat.ltb_ge. lia.
Qed.

(** The bound of the repetition is never met: any bound that is at least
    the length of the text that is left gives the same result. *)
Lemma star_loop_fuel A r (k : cursor -> option string -> option A) n :
  forall m c cap,
    length (rest c) <= n -> length (rest c) <= m ->
    star_loop (run r) k n c cap = star_loop (run r) k m c cap.
Proof.
  assert (Z : forall j c cap, rest c = [] ->
                 star_loop (run r) k j c cap = k c cap).
  { intros [|j] c cap E; simpl; [reflexivity|].
    rewrite (@run_local A r c cap _ (fun _ _ => None)), run_no_match; [reflexivity|].
    intros c' cap' X. now rewrite (extends_at_end X E). }
  induction n as [|n IH]; intros m c cap Ln Lm.
  - assert (E : rest c = []) by (destruct (rest c); [reflexivity | simpl in Ln; lia]).
    now rewrite !Z.
  - destruct m as [|m].
    + assert (E : rest c = []) by (destruct (rest c); [reflexivity | simpl in Lm; lia]).
      now rewrite !Z.
    + simpl.
      rewrite (@run_local A r c cap _
                 (fun c' cap' =>
                    if pos c <? pos c' then star_loop (run r) k m c' cap' else None));
        [reflexivity|].
      intros c' cap' X. destruct (pos c <? pos c') eqn:P; [|reflexivity].
      apply Nat.ltb_lt in P. pose proof (extends_progress X P).
      apply IH; lia.
Qed.

Lemma run_inv A r : grp_ident r ->
  forall (k : cursor -> option string -> option A) c cap a,
    run r c cap k = Some a ->
    exists c' cap', k c' cap' = Some a /\ extends c c'
      /\ (cap' = cap \/ good_cap cap')
      /\ (sets_group r = true -> good_cap cap').
Proof.
  induction r as [|x|p| | |r1 IH1 r2 IH2|r1 IH1 r2 IH2|r IH|r IH];
    intros G k c cap a H; simpl in H.
  - exists c, cap. repeat split; auto using extends_refl. discriminate.
  - destruct (rest c) as [|y l] eqn:R; [discriminate|].
    destruct (Ascii.eqb y x); [|discriminate].
    eexists _, cap. repeat split; eauto using extends_step. discriminate.
  - destruct (rest c) as [|y l] eqn:R; [discriminate|].
    destruct (p y); [|discriminate].
    eexists _, cap. repeat split; eauto using extends_step. discriminate.
  - destruct (xorb _ _); [|discriminate].
    exists c, cap. repeat split; auto using extends_refl. discriminate.
  - destruct (at_line_start c); [|discriminate].
    exists c, cap. repeat split; auto using extends_refl. discriminate.
  - destruct G as [G1 G2]. apply (IH1 G1) in H.
    destruct H as [c1 [cap1 [H [E1 [D1 S1]]]]].
    apply (IH2 G2) in H. destruct H as [c2 [cap2 [H [E2 [D2 S2]]]]].
    exists c2, cap2. split; [assumption|]. split; [eauto using extends_trans|].
    split.
    + destruct D2 as [->|D2]; auto.
    + simpl. intros HS. apply orb_true_iff in HS. destruct HS as [HS|HS]; auto.
      destruct D2 as [->|D2]; auto.
  - destruct G as [G1 G2]. simpl.
    destruct (run r1 c cap k) as [a1|] eqn:E1.
    + injection H as ->. apply (IH1 G1) in E1.
      destruct E1 as [c1 [cap1 [H [E1 [D1 S1]]]]].
      exists c1, cap1. repeat split; auto.
      intros HS. apply andb_true_iff in HS. tauto.
    + apply (IH2 G2) in H. destruct H as [c1 [cap1 [H [E2 [D2 S2]]]]].
      exists c1, cap1. repeat split; auto.
      intros HS. apply andb_true_iff in HS. tauto.
  - simpl in G.
    apply star_loop_inv
      with (Q := fun c cap c' cap' =>
                   extends c c' /\ (cap' = cap \/ good_cap cap')) in H.
    + destruct H as [c' [cap' [H [E D]]]]. exists c', cap'.
      repeat split; auto. discriminate.
    + intros. split; auto using extends_refl.
    + intros c1 p1 c2 p2 c3 p3 [E1 D1] [E2 D2].
      split; [eauto using extends_trans|]. destruct D2 as [->|D2]; auto.
    + intros c0 cap0 k0 a0 E. apply (IH G) in E.
      destruct E as [c1 [cap1 [E [X [D _]]]]]. eauto.
  - simpl in G. subst r. apply run_ident in H.
    destruct H as [c' [H [s [I [R P]]]]].
    assert (Hg : good_cap (Some (consumed c c'))).
    { exists (consumed c c'). split; [reflexivity|].
      rewrite (extends_consumed c c' s R P). unfold is_ident.
      now rewrite list_ascii_of_string_of_list_ascii. }
    exists c', (Some (consumed c c')). repeat split; auto.
    exists s. auto.
Qed.

Lemma length_chars (s : string) :
  length (list_ascii_of_string s) = String.length s.
Proof. induction s as [|a s IH]; simpl; congruence. Qed.

Lemma at_offset_le content c : at_offset content c -> pos c <= String.length content.
Proof.
  intros [pre [H P]]. rewrite <- length_chars, H, length_app. lia.
Qed.

Lemma at_offset_extends content c c' :
  at_offset content c -> extends c c' -> at_offset content c'.
Proof.
  intros [pre [H P]] [s [R Q]]. exists (pre ++ s).
  rewrite H, R, <- app_assoc, length_app. split; [reflexivity | lia].
Qed.

Lemma at_offset_advance content c c1 :
  at_offset content c -> advance c = Some c1 -> at_offset content c1.
Proof.
  unfold advance. intros W H. destruct (rest c) as [|a l] eqn:R; [discriminate|].
  injection H as <-. eapply at_offset_extends; [exact W|]. now apply extends_step.
Qed.

Lemma at_offset_start content : at_offset content (start_cursor content).
Proof. exists []. split; reflexivity. Qed.

Lemma match_at_inv r c c' m :
  grp_ident r -> match_at r c = Some (c', m) ->
  extends c c' /\ m_start m = pos c
  /\ (sets_group r = true -> exists s, m_group1 m = Some s /\ is_ident s = true).
Proof.
  intros G H. unfold match_at in H. apply run_inv in H; [|exact G].
  destruct H as [c1 [cap1 [H [E [_ S]]]]]. injection H as <- <-. auto.
Qed.

Lemma finditer_from_ok content r (G : grp_ident r) fuel : forall c,
    at_offset content c -> Forall (match_ok content r) (finditer_from fuel r c).
Proof.
  induction fuel as [|fuel IH]; intros c W; simpl; [constructor|].
  assert (N : Forall (match_ok content r)
                match advance c with
                | Some c1 => finditer_from fuel r c1
                | None => []
                end).
  { destruct (advance c) as [c1|] eqn:E; [|constructor].
    apply IH. eapply at_offset_advance; eassumption. }
  destruct (match_at r c) as [[c' m]|] eqn:E; [|exact N].
  pose proof E as E'. apply match_at_inv in E'; [|exact G].
  destruct E' as [X [S I]].
  constructor.
  - split; [|exact I]. rewrite S. now apply at_offset_le.
  - destruct (pos c <? pos c'); [|exact N].
    apply IH. eapply at_offset_extends; eassumption.
Qed.

Lemma finditer_ok content r :
  grp_ident r -> Forall (match_ok content r) (finditer r content).
Proof. intros G. apply finditer_from_ok; auto using at_offset_start. Qed.

Lemma captures_ident_patterns :
  Forall captures_ident
    [STRUCT_PATTERN; CLASS_PATTERN; ENUM_PATTERN; AUTO_VAR_PATTERN;
     CONST_REF_VAR_PATTERN; BASIC_TYPE_VAR_PATTERN; FUNCTION_PATTERN].
Proof. repeat constructor. Qed.

Lemma finditer_group1_ident content r m :
  captures_ident r -> In m (finditer r content) -> is_ident (group1 m) = true.
Proof.
  intros [G S] I. pose proof (@finditer_ok content r G) as F.
  rewrite Forall_forall in F. destruct (F m I) as [_ H].
  destruct (H S) as [s [E Hs]]. unfold group1. now rewrite E.
Qed.

Lemma match_at_extends r c c' m :
  match_at r c = Some (c', m) -> extends c c' /\ m_start m = pos c.
Proof.
  intros H. unfold match_at in H. apply run_extends in H.
  destruct H as [c1 [cap1 [H E]]]. injection H as <- <-. auto.
Qed.

Lemma finditer_from_start_le content r fuel : forall c,
    at_offset content c ->
    Forall (fun m => m_start m <= String.length content) (finditer_from fuel r c).
Proof.
  induction fuel as [|fuel IH]; intros c W; simpl; [constructor|].
  assert (N : Forall (fun m => m_start m <= String.length content)
                match advance c with
                | Some c1 => finditer_from fuel r c1
                | None => []
                end).
  { destruct (advance c) as [c1|] eqn:E; [|constructor].
    apply IH. eapply at_offset_advance; eassumption. }
  destruct (match_at r c) as [[c' m]|] eqn:E; [|exact N].
  destruct (match_at_extends _ _ E) as [X S].
  constructor.
  - rewrite S. now apply at_offset_le.
  - destruct (pos c <? pos c'); [|exact N].
    apply IH. eapply at_offset_extends; eassumption.
Qed.

Lemma finditer_start_le content r :
  Forall (fun m => m_start m <= String.length content) (finditer r content).
Proof. apply finditer_from_start_le, at_offset_start. Qed.

(** The bound of [finditer] is never met either. *)
Lemma finditer_from_fuel r n : forall m c,
    length (rest c) < n -> length (rest c) < m ->
    finditer_from n r c = finditer_from m r c.
Proof.
  induction n as [|n IH]; intros m c Ln Lm; [lia|].
  destruct m as [|m]; [lia|]. simpl.
  assert (N : match advance c with
              | Some c1 => finditer_from n r c1
              | None => []
              end
              = match advance c with
                | Some c1 => finditer_from m r c1
                | None => []
                end).
  { unfold advance. destruct (rest c) as [|a l] eqn:R; [reflexivity|].
    apply IH; simpl in *; lia. }
  destruct (match_at r c) as [[c' mt]|] eqn:E; [|exact N].
  f_equal. destruct (pos c <? pos c') eqn:P; [|exact N].
  apply Nat.ltb_lt in P. apply match_at_extends in E. destruct E as [X _].
  pose proof (extends_progress X P). apply IH; lia.
Qed.

(** * Properties of the scope tracker *)

Lemma scan_in_range ns n : forall i chars st,
    n <= length chars ->
    scan ns n i chars st = Ok (scan_prefix ns i (firstn n chars) st).
Proof.
  induction n as [|n IH]; intros i chars st L; simpl; [reflexivity|].
  destruct chars as [|ch chars]; simpl in *; [lia|]. apply IH. lia.
Qed.

Lemma scan_past_end ns n : forall i chars st,
    length chars < n -> scan ns n i chars st = Raise IndexError.
Proof.
  induction n as [|n IH]; intros i chars st L; simpl; [lia|].
  destruct chars as [|ch chars]; simpl in *; [reflexivity|]. apply IH. lia.
Qed.

Lemma scan_step_tracks ns i ch open :
  scan_step ns i ch (tracker_state ns open) = tracker_state ns (brace_step i ch open).
Proof.
  unfold scan_step, brace_step, tracker_state, type_braces.
  destruct (Ascii.eqb ch "{").
  - cbn -[Z.of_nat Z.add].
    destruct (is_namespace_brace ns i); cbn -[Z.of_nat Z.add]; f_equal. lia.
  - destruct (Ascii.eqb ch "}"); [|reflexivity].
    destruct open as [|p open]; cbn -[Z.of_nat Z.sub]; [reflexivity|].
    destruct (is_namespace_brace ns p); cbn -[Z.of_nat Z.sub]; f_equal. lia.
Qed.

Lemma scan_prefix_tracks ns chars : forall i open,
    scan_prefix ns i chars (tracker_state ns open)
    = tracker_state ns (open_braces i chars open).
Proof.
  induction chars as [|ch chars IH]; intros i open;
    cbn [scan_prefix open_braces]; [reflexivity|].
  now rewrite scan_step_tracks, IH.
Qed.

Lemma get_type_nesting_depth_in_range content pos :
  pos <= String.length content ->
  get_type_nesting_depth content pos = Ok (depth_at content pos).
Proof.
  intros L. unfold get_type_nesting_depth.
  rewrite scan_in_range by (now rewrite length_chars).
  change (0%Z, @nil bool) with (tracker_state (namespace_brace_positions content) []).
  now rewrite scan_prefix_tracks.
Qed.

Lemma get_type_nesting_depth_past_end content pos :
  String.length content < pos ->
  get_type_nesting_depth content pos = Raise IndexError.
Proof.
  intros L. unfold get_type_nesting_depth.
  now rewrite scan_past_end by (now rewrite length_chars).
Qed.

(** * Properties of the definition extractor *)

Lemma find_definitions_loop_eq content ms : forall matches,
    Forall (fun m => m_start m <= String.length content) ms ->
    find_definitions_loop content ms matches
    = Ok (matches ++ map group1 (filter (top_level_definition content) ms)).
Proof.
  induction ms as [|m ms IH]; intros matches F; simpl.
  - now rewrite app_nil_r.
  - inversion F as [|? ? Hm F']; subst. unfold top_level_definition at 1.
    destruct (is_definition_end m); simpl.
    + rewrite get_type_nesting_depth_in_range by assumption. simpl.
      destruct (depth_at content (m_start m) =? 0)%Z; simpl.
      * rewrite IH by assumption. now rewrite <- app_assoc.
      * now apply IH.
    + now apply IH.
Qed.

Lemma find_definitions_eq content pattern :
  find_definitions content pattern = Ok (type_names content pattern).
Proof.
  unfold find_definitions. rewrite find_definitions_loop_eq; [reflexivity|].
  apply finditer_start_le.
Qed.

(** * Properties of the string helpers and the casing predicates *)

Lemma rfind_absent x s : one_of s x = false -> rfind x s = None.
Proof.
  unfold one_of. induction s as [|a s IH]; simpl; [reflexivity|].
  intros H. apply orb_false_iff in H. destruct H as [Ha Hs].
  rewrite (IH Hs). rewrite Ascii.eqb_sym, Ha. reflexivity.
Qed.

Lemma rfind_present x s : one_of s x = true -> exists i, rfind x s = Some i.
Proof.
  unfold one_of. induction s as [|a s IH]; simpl; [discriminate|].
  intros H. destruct (rfind x s) as [i|] eqn:E; [eauto|].
  destruct (existsb (Ascii.eqb x) (list_ascii_of_string s)) eqn:Es.
  - destruct (IH eq_refl) as [i Hi]. discriminate.
  - rewrite orb_false_r in H. rewrite Ascii.eqb_sym, H. eauto.
Qed.

Lemma split_on_absent x s : one_of s x = false -> split_on x s = [s].
Proof.
  unfold one_of. induction s as [|a s IH]; simpl; [reflexivity|].
  intros H. apply orb_false_iff in H. destruct H as [Ha Hs].
  rewrite Ascii.eqb_sym, Ha, (IH Hs). reflexivity.
Qed.

Lemma one_of_app s t x : one_of (s ++ t)%string x = one_of s x || one_of t x.
Proof.
  unfold one_of. induction s as [|a s IH]; simpl; [reflexivity|].
  now rewrite IH, orb_assoc.
Qed.

Lemma substring_full s : substring 0 (String.length s) s = s.
Proof. induction s as [|a s IH]; simpl; congruence. Qed.

Lemma path_name_plain s :
  one_of s "/" = false -> s <> "" -> s <> "." -> path_name s = s.
Proof.
  intros H N1 N2. unfold path_name. rewrite (split_on_absent _ _ H). simpl.
  destruct (String.eqb s "") eqn:E1; [apply String.eqb_eq in E1; contradiction|].
  destruct (String.eqb s ".") eqn:E2; [apply String.eqb_eq in E2; contradiction|].
  reflexivity.
Qed.

Lemma stem_nonempty p : path_name p <> "" -> stem p <> "".
Proof.
  unfold stem. intros N. destruct (rfind "." (path_name p)) as [i|]; [|exact N].
  destruct ((0 <? i) && _) eqn:C; [|exact N].
  apply andb_true_iff in C. destruct C as [C _]. apply Nat.ltb_lt in C.
  destruct i as [|i]; [lia|].
  destruct (path_name p); [contradiction|]. simpl. discriminate.
Qed.

(** Identifier characters are neither [/] nor [.]. *)
Lemma ident_char_plain a :
  ident_char a = true -> Ascii.eqb a "/" = false /\ Ascii.eqb a "." = false.
Proof.
  intros H. split.
  - destruct (Ascii.eqb a "/") eqn:E; [|reflexivity].
    apply Ascii.eqb_eq in E. subst a. discriminate.
  - destruct (Ascii.eqb a ".") eqn:E; [|reflexivity].
    apply Ascii.eqb_eq in E. subst a. discriminate.
Qed.

Lemma ident_chars_plain l :
  forallb ident_char l = true ->
  existsb (Ascii.eqb "/") l = false /\ existsb (Ascii.eqb ".") l = false.
Proof.
  induction l as [|a l IH]; cbn [forallb existsb]; [auto|].
  intros H. apply andb_true_iff in H. destruct H as [Ha Hl].
  destruct (ident_char_plain _ Ha) as [A1 A2]. destruct (IH Hl) as [B1 B2].
  rewrite (Ascii.eqb_sym "/" a), (Ascii.eqb_sym "." a), A1, A2, B1, B2. auto.
Qed.

Lemma is_ident_plain s :
  is_ident s = true ->
  one_of s "/" = false /\ one_of s "." = false /\ s <> "" /\ s <> ".".
Proof.
  unfold is_ident, one_of.
  destruct s as [|a s]; cbn [list_ascii_of_string is_ident_chars existsb];
    [discriminate|].
  intros H. apply andb_true_iff in H. destruct H as [Ha Hs].
  assert (Hc : ident_char a = true) by (unfold ident_char; now rewrite Ha).
  destruct (ident_char_plain _ Hc) as [A1 A2].
  destruct (ident_chars_plain _ Hs) as [B1 B2].
  rewrite (Ascii.eqb_sym "/" a), (Ascii.eqb_sym "." a), A1, A2, B1, B2.
  repeat split; try discriminate.
  intros E. injection E as -> _. discriminate.
Qed.

Lemma stem_ident s : is_ident s = true -> stem s = s.
Proof.
  intros H. destruct (is_ident_plain _ H) as [H1 [H2 [H3 H4]]].
  unfold stem. rewrite (path_name_plain H1 H3 H4).
  now rewrite (rfind_absent _ _ H2).
Qed.

Lemma is_camel_case_ident s :
  is_ident s = true -> is_camel_case s = Ok (plain_camel s).
Proof.
  intros H. unfold is_camel_case. rewrite (stem_ident _ H).
  destruct s as [|c s]; [discriminate|]. simpl String.eqb. cbv iota.
  unfold plain_camel. destruct (isupper c); [reflexivity|].
  destruct (has_underscore (String c s)); reflexivity.
Qed.

Lemma basename_cons a s :
  basename (String a s)
  = if one_of s "/" then basename s
    else if Ascii.eqb a "/" then s else String a s.
Proof.
  unfold basename. cbn [rfind String.length].
  destruct (one_of s "/") eqn:O.
  - destruct (rfind_present _ _ O) as [i Hi]. rewrite Hi. reflexivity.
  - rewrite (rfind_absent _ _ O).
    destruct (Ascii.eqb a "/"); [|reflexivity].
    replace (S (String.length s) - 1) with (String.length s) by lia.
    cbn [substring]. apply substring_full.
Qed.

Lemma basename_no_slash s : one_of (basename s) "/" = false.
Proof.
  induction s as [|a s IH]; [reflexivity|]. rewrite basename_cons.
  destruct (one_of s "/") eqn:O; [exact IH|].
  destruct (Ascii.eqb a "/") eqn:E; [exact O|].
  unfold one_of in *. cbn [list_ascii_of_string existsb].
  now rewrite Ascii.eqb_sym, E, O.
Qed.

Lemma basename_app s p :
  one_of p "/" = false -> basename (s ++ p) = (basename s ++ p)%string.
Proof.
  intros Hp. induction s as [|a s IH].
  - simpl. unfold basename. now rewrite (rfind_absent _ _ Hp).
  - change (String a s ++ p)%string with (String a (s ++ p)).
    rewrite !basename_cons, one_of_app, Hp, orb_false_r.
    destruct (one_of s "/"); [exact IH|].
    destruct (Ascii.eqb a "/"); reflexivity.
Qed.

Lemma substring_suffix s : forall n m p,
    substring n m s = p -> n + m = String.length s -> exists pre, s = (pre ++ p)%string.
Proof.
  induction s as [|a s IH]; intros n m p H L; simpl in L.
  - assert (n = 0) by lia. assert (m = 0) by lia. subst n m. simpl in H.
    subst p. now exists "".
  - destruct n as [|n].
    + simpl in L. subst m.
      change (S (String.length s)) with (String.length (String a s)) in H.
      rewrite substring_full in H. subst p. now exists "".
    + simpl in H. destruct (IH n m p H) as [pre E]; [lia|].
      exists (String a pre). simpl. now rewrite <- E.
Qed.

Lemma endswith_app s p : endswith s p = true -> exists pre, s = (pre ++ p)%string.
Proof.
  unfold endswith. intros H. apply andb_true_iff in H. destruct H as [L E].
  apply Nat.leb_le in L. apply String.eqb_eq in E.
  eapply substring_suffix; [exact E | lia].
Qed.

Lemma length_append (s t : string) :
  String.length (s ++ t) = String.length s + String.length t.
Proof. induction s as [|a s IH]; simpl; congruence. Qed.

Lemma is_camel_case_long_name b :
  one_of b "/" = false -> 2 <= String.length b ->
  exists camel, is_camel_case b = Ok camel.
Proof.
  intros O L.
  assert (N1 : b <> "") by (intros ->; simpl in L; lia).
  assert (N2 : b <> ".") by (intros ->; simpl in L; lia).
  pose proof (path_name_plain O N1 N2) as P.
  assert (S : stem b <> "") by (apply stem_nonempty; now rewrite P).
  unfold is_camel_case.
  destruct (String.eqb b "") eqn:E; [apply String.eqb_eq in E; contradiction|].
  destruct (stem b) as [|c s]; [contradiction|].
  destruct (isupper c); [eauto|]. destruct (has_underscore _); eauto.
Qed.

(** The file-name test never raises on a path that [main] checks. *)
Lemma is_camel_case_checked filepath :
  is_checked filepath = true ->
  exists camel, is_camel_case (basename filepath) = Ok camel.
Proof.
  unfold is_checked. intros H.
  assert (X : exists pre ext,
             filepath = (pre ++ ext)%string /\ one_of ext "/" = false
             /\ 2 <= String.length ext).
  { repeat (apply orb_true_iff in H; destruct H as [H|H]);
      apply endswith_app in H; destruct H as [pre E];
      eexists pre, _; (split; [exact E|]); split;
      solve [reflexivity | simpl; lia]. }
  destruct X as [pre [ext [-> [O L]]]].
  apply is_camel_case_long_name.
  - rewrite (basename_app pre _ O), one_of_app, basename_no_slash, O. reflexivity.
  - rewrite (basename_app pre _ O), length_append. lia.
Qed.

(** * The policy evaluator, rule by rule *)

Lemma filter_filter {X} (P Q : X -> bool) l :
  filter P (filter Q l) = filter (fun x => Q x && P x) l.
Proof.
  induction l as [|x l IH]; simpl; [reflexivity|].
  destruct (Q x); simpl; [destruct (P x)|]; now rewrite IH.
Qed.

Lemma new_names_dedup l : forall seen,
    new_names seen l = filter (fun x => negb (str_in x seen)) (dedup_first l).
Proof.
  induction l as [|x l IH]; intros seen; simpl; [reflexivity|].
  destruct (str_in x seen) eqn:E; simpl.
  - rewrite IH, filter_filter. apply filter_ext. intros y.
    destruct (String.eqb y x) eqn:Y; simpl; [|reflexivity].
    apply String.eqb_eq in Y. subst y. now rewrite E.
  - f_equal. rewrite IH, filter_filter. apply filter_ext. intros y.
    unfold str_in. simpl. now rewrite negb_orb.
Qed.

Lemma new_names_nil l : new_names [] l = dedup_first l.
Proof.
  rewrite new_names_dedup. generalize (dedup_first l). intros d.
  rewrite (filter_ext _ (fun _ => true)) by reflexivity.
  induction d as [|x d IH]; simpl; congruence.
Qed.

Lemma dedup_loop_eq ts : forall seen all_types,
    dedup_loop ts seen all_types = all_types ++ new_names seen ts.
Proof.
  induction ts as [|t ts IH]; intros seen acc; simpl.
  - now rewrite app_nil_r.
  - destruct (str_in t seen); simpl; rewrite IH; [reflexivity|].
    now rewrite <- app_assoc.
Qed.

Lemma dedup_first_In l x : In x (dedup_first l) <-> In x l.
Proof.
  induction l as [|y l IH]; simpl; [tauto|].
  rewrite filter_In, IH. split.
  - intros [H|[H _]]; auto.
  - intros [H|H]; [auto|].
    destruct (String.eqb x y) eqn:E.
    + apply String.eqb_eq in E. auto.
    + right. auto.
Qed.

Lemma dedup_first_NoDup l : NoDup (dedup_first l).
Proof.
  induction l as [|y l IH]; simpl; constructor.
  - rewrite filter_In. intros [_ H]. now rewrite String.eqb_refl in H.
  - now apply NoDup_filter.
Qed.

Lemma pascal_loop_eq mk names : forall violations,
    pascal_loop mk names violations = violations ++ pascal_part mk names.
Proof.
  unfold pascal_loop, pascal_part.
  induction names as [|n names IH]; intros vs; simpl.
  - now rewrite app_nil_r.
  - rewrite IH. destruct (is_pascal_case n); simpl; [reflexivity|].
    now rewrite <- app_assoc.
Qed.

Lemma for_each_app {X S} (body : S -> X -> result S) l1 : forall l2 s,
    for_each (l1 ++ l2) body s = (s' <- for_each l1 body s ;; for_each l2 body s').
Proof.
  induction l1 as [|x l1 IH]; intros l2 s; simpl; [reflexivity|].
  destruct (body s x); simpl; [apply IH | reflexivity].
Qed.

Lemma for_each_nested {P X S} (f : P -> list X) (body : S -> X -> result S) ps :
  forall s,
    for_each ps (fun s p => for_each (f p) body s) s
    = for_each (flat_map f ps) body s.
Proof.
  induction ps as [|p ps IH]; intros s; simpl; [reflexivity|].
  rewrite for_each_app. destruct (for_each (f p) body s); simpl; auto.
Qed.

Lemma var_loop_eq ms : forall seen violations,
    Forall (fun m => is_ident (group1 m) = true) ms ->
    exists seen',
      for_each ms var_body (seen, violations)
      = Ok (seen', violations ++ flat_map classify_var (new_names seen (map group1 ms))).
Proof.
  induction ms as [|m ms IH]; intros seen vs F; simpl.
  - exists seen. now rewrite app_nil_r.
  - inversion F as [|? ? Hm F']; subst.
    destruct (str_in (group1 m) seen) eqn:E; simpl; [now apply IH|].
    unfold classify_var at 1. rewrite (is_camel_case_ident _ Hm).
    destruct (String.length (group1 m) =? 1); simpl.
    + destruct (IH (group1 m :: seen) (vs ++ [VarShort (group1 m)]) F') as [s' ->].
      exists s'. now rewrite <- app_assoc.
    + destruct (plain_camel (group1 m)); simpl.
      * now apply IH.
      * destruct (IH (group1 m :: seen) (vs ++ [VarCase (group1 m)]) F') as [s' ->].
        exists s'. now rewrite <- app_assoc.
Qed.

Lemma func_loop_eq all_types ms : forall violations,
    Forall (fun m => is_ident (group1 m) = true) ms ->
    for_each ms (func_body all_types) violations
    = Ok (violations ++ flat_map (classify_func all_types) ms).
Proof.
  induction ms as [|m ms IH]; intros vs F; simpl.
  - now rewrite app_nil_r.
  - inversion F as [|? ? Hm F']; subst.
    unfold func_body at 1, classify_func at 1, exempt, constructor_form.
    destruct (str_in (group1 m) all_types || startswith (group1 m) "~") eqn:E1;
      simpl; [now apply IH|].
    destruct (contains _ (m_group0 m) || contains _ (m_group0 m)) eqn:E2;
      simpl; [now apply IH|].
    destruct (String.eqb (group1 m) "main") eqn:E3; simpl; [now apply IH|].
    destruct (startswith (group1 m) "operator") eqn:E4; simpl; [now apply IH|].
    rewrite (is_camel_case_ident _ Hm). simpl.
    destruct (plain_camel (group1 m)); simpl; [now apply IH|].
    rewrite IH by assumption. now rewrite <- app_assoc.
Qed.

Lemma var_matches_ident content :
  Forall (fun m => is_ident (group1 m) = true) (var_matches content).
Proof.
  pose proof captures_ident_patterns as C. rewrite Forall_forall in C.
  apply Forall_forall. intros m H. unfold var_matches in H.
  apply in_flat_map in H. destruct H as [p [Hp Hm]].
  eapply finditer_group1_ident; [|exact Hm]. apply C.
  unfold var_patterns in Hp. simpl in *. tauto.
Qed.

Lemma func_matches_ident content :
  Forall (fun m => is_ident (group1 m) = true) (finditer FUNCTION_PATTERN content).
Proof.
  pose proof captures_ident_patterns as C. rewrite Forall_forall in C.
  apply Forall_forall. intros m H.
  eapply finditer_group1_ident; [|exact H]. apply C. simpl. tauto.
Qed.

(** The types [check_file] extracts are [all_types_of]. *)
Lemma all_types_of_extracted content :
  (structs <- find_definitions content STRUCT_PATTERN ;;
   classes <- find_definitions content CLASS_PATTERN ;;
   enums <- find_definitions content ENUM_PATTERN ;;
   Ok (dedup_loop (structs ++ classes ++ enums) [] []))
  = Ok (all_types_of content).
Proof.
  rewrite !find_definitions_eq. cbn [bind].
  now rewrite dedup_loop_eq, new_names_nil.
Qed.

(** [check_file] on a readable file: the violations of the six rules,
    in the order of the rules; only the file-name test can raise. *)
Lemma check_file_violations_eq filepath content :
  check_file_violations filepath content
  = (camel <- is_camel_case (basename filepath) ;;
     Ok (length_part content ++ name_part filepath camel
         ++ count_part filepath (all_types_of content)
         ++ pascal_part StructName (type_names content STRUCT_PATTERN)
         ++ pascal_part ClassName (type_names content CLASS_PATTERN)
         ++ pascal_part EnumName (type_names content ENUM_PATTERN)
         ++ var_part content
         ++ func_part content (all_types_of content))).
Proof.
  unfold check_file_violations. cbv zeta.
  destruct (is_camel_case (basename filepath)) as [camel|e]; [|reflexivity].
  cbn [bind]. rewrite !find_definitions_eq. cbn [bind].
  rewrite dedup_loop_eq, new_names_nil, app_nil_l. fold (all_types_of content).
  match goal with
  | |- context [pascal_loop StructName _ ?v] =>
      assert (E : v = length_part content ++ name_part filepath camel
                      ++ count_part filepath (all_types_of content))
  end.
  { unfold length_part, name_part, count_part.
    destruct (1000 <? line_count_of content), (negb camel), (is_header filepath),
      (is_source filepath), (1 <? length (all_types_of content)),
      (0 <? length (all_types_of content)); reflexivity. }
  rewrite E. clear E. rewrite !pascal_loop_eq, for_each_nested.
  fold (var_matches content).
  match goal with
  | |- context [for_each (var_matches content) var_body ([], ?v)] =>
      destruct (var_loop_eq [] v (var_matches_ident content)) as [seen' E]
  end.
  rewrite E. clear E. cbn [bind snd].
  rewrite new_names_nil, func_loop_eq by apply func_matches_ident.
  fold (evaluated_names content). fold (var_part content).
  fold (func_part content (all_types_of content)).
  now rewrite <- !app_assoc.
Qed.

(** * Properties of the JSON decoder: the bound of the recursion is never met *)

Lemma skip_ws_length s : length (skip_ws s) <= length s.
Proof.
  induction s as [|c s IH]; simpl; [lia|]. destruct (json_ws c); simpl; lia.
Qed.

Lemma after_prefix_length p : forall s s',
    after_prefix p s = Some s' -> length s = length p + length s'.
Proof.
  induction p as [|x p IH]; intros s s' H; simpl in H.
  - injection H as ->. reflexivity.
  - destruct s as [|y s]; [discriminate|].
    destruct (Ascii.eqb x y); [|discriminate]. simpl. now rewrite (IH _ _ H).
Qed.

Lemma span_of_length p s : forall a b,
    span_of p s = (a, b) -> length s = length a + length b.
Proof.
  induction s as [|c s IH]; intros a b H; simpl in H.
  - injection H as <- <-. reflexivity.
  - destruct (p c).
    + destruct (span_of p s) as [a' b'] eqn:E. injection H as <- <-.
      simpl. now rewrite (IH _ _ eq_refl).
    + injection H as <- <-. reflexivity.
Qed.

Lemma scanstring_length n : forall s acc str s',
    length s <= n -> scanstring s acc = Ok (str, s') -> length s' < length s.
Proof.
  induction n as [|n IH]; intros s acc str s' L H.
  - destruct s; [discriminate | simpl in L; lia].
  - destruct s as [|c s1]; [discriminate|]. cbn [length] in L.
    cbn [scanstring] in H. split_cases H; subst; cbn [length] in *;
      try discriminate;
      try (injection H as <- <-; lia);
      try (apply IH in H; cbn [length] in *; lia).
Qed.

Lemma number_sign_length s b s' : number_sign s = (b, s') -> length s' <= length s.
Proof.
  unfold number_sign. intros H. split_cases H; injection H as <- <-; simpl; lia.
Qed.

Lemma number_integer_length s ip s' :
  number_integer s = Some (ip, s') -> length s' < length s.
Proof.
  unfold number_integer. intros H. destruct s as [|c s]; [discriminate|].
  destruct (Ascii.eqb c "0"); [injection H as <- <-; simpl; lia|].
  destruct (ascii_digit c); [|discriminate].
  destruct (span_of ascii_digit s) as [ds s2] eqn:E. injection H as <- <-.
  apply span_of_length in E. simpl. lia.
Qed.

Lemma number_frac_length s f s' : number_frac s = (f, s') -> length s' <= length s.
Proof.
  unfold number_frac. intros H. destruct s as [|c s]; [injection H as <- <-; lia|].
  destruct (Ascii.eqb c "."); [|injection H as <- <-; lia].
  destruct (span_of ascii_digit s) as [fd s2] eqn:E. apply span_of_length in E.
  destruct fd; injection H as <- <-; simpl in *; lia.
Qed.

Lemma exponent_sign_length s b s' : exponent_sign s = (b, s') -> length s' <= length s.
Proof.
  unfold exponent_sign. intros H. split_cases H; injection H as <- <-; simpl; lia.
Qed.

Lemma number_exp_length s x s' : number_exp s = (x, s') -> length s' <= length s.
Proof.
  unfold number_exp. intros H. destruct s as [|c s]; [injection H as <- <-; lia|].
  destruct (Ascii.eqb c "e" || Ascii.eqb c "E"); [|injection H as <- <-; lia].
  destruct (exponent_sign s) as [minus s1] eqn:E1. apply exponent_sign_length in E1.
  destruct (span_of ascii_digit s1) as [ed s2] eqn:E. apply span_of_length in E.
  destruct ed; injection H as <- <-; simpl in *; lia.
Qed.

Lemma match_number_length s v s' :
  match_number s = Some (v, s') -> length s' < length s.
Proof.
  unfold match_number. intros H.
  destruct (number_sign s) as [negative s1] eqn:E1. apply number_sign_length in E1.
  destruct (number_integer s1) as [[ip s2]|] eqn:E2; [|discriminate].
  apply number_integer_length in E2.
  destruct (number_frac s2) as [frac s3] eqn:E3. apply number_frac_length in E3.
  destruct (number_exp s3) as [expo s4] eqn:E4. apply number_exp_length in E4.
  destruct frac, expo; injection H as <- <-; lia.
Qed.

Lemma after_length p s s' : after p s = Some s' -> p <> "" -> length s' < length s.
Proof.
  unfold after. intros H N. apply after_prefix_length in H.
  destruct p; [contradiction|]. simpl in H. lia.
Qed.

(** A value takes at least one character. *)
Lemma decode_length ip fuel : forall room md s v s',
    decode ip fuel room md s = Done (v, s') -> length s' < length s.
Proof.
  induction fuel as [|fuel IH]; intros room md s v s' H; [discriminate|].
  cbn [decode] in H. unfold errmsg, expecting in H. destruct md.
  - destruct s as [|c s1]; [discriminate|].
    destruct (Ascii.eqb c dquote).
    { destruct (scanstring s1 []) as [[str s2]|e] eqn:E; [|discriminate].
      injection H as <- <-. apply (scanstring_length (n := length s1)) in E; simpl; lia. }
    destruct (Ascii.eqb c "{").
    { destruct room as [|room']; [discriminate|].
      pose proof (skip_ws_length s1) as W.
      destruct (skip_ws s1) as [|d s2]; [discriminate|]. simpl in W.
      destruct (Ascii.eqb d "}"); [injection H as <- <-; simpl; lia|].
      apply IH in H. simpl in *. lia. }
    destruct (Ascii.eqb c "[").
    { destruct room as [|room']; [discriminate|].
      pose proof (skip_ws_length s1) as W.
      destruct (skip_ws s1) as [|d s2]; [discriminate|]. simpl in W.
      destruct (Ascii.eqb d "]"); [injection H as <- <-; simpl; lia|].
      apply IH in H. simpl in *. lia. }
    destruct (after "null" (c :: s1)) eqn:A1;
      [injection H as <- <-; apply after_length in A1; [exact A1|discriminate]|].
    destruct (after "true" (c :: s1)) eqn:A2;
      [injection H as <- <-; apply after_length in A2; [exact A2|discriminate]|].
    destruct (after "false" (c :: s1)) eqn:A3;
      [injection H as <- <-; apply after_length in A3; [exact A3|discriminate]|].
    destruct (match_number (c :: s1)) as [[v0 s0]|] eqn:M;
      [destruct (too_many_digits _ _); [discriminate|];
       injection H as <- <-; now apply match_number_length in M|].
    unfold constant in H.
    destruct (after "NaN" (c :: s1)) eqn:A4;
      [destruct room; [discriminate|];
       injection H as <- <-; apply after_length in A4; [exact A4|discriminate]|].
    destruct (after "Infinity" (c :: s1)) eqn:A5;
      [destruct room; [discriminate|];
       injection H as <- <-; apply after_length in A5; [exact A5|discriminate]|].
    destruct (after "-Infinity" (c :: s1)) eqn:A6;
      [destruct room; [discriminate|];
       injection H as <- <-; apply after_length in A6; [exact A6|discriminate]|].
    discriminate.
  - destruct (decode ip fuel room MValue s) as [[value s1]| |] eqn:E;
      try discriminate.
    apply IH in E. pose proof (skip_ws_length s1) as W.
    destruct (skip_ws s1) as [|d s2]; [discriminate|]. simpl in W.
    destruct (Ascii.eqb d "]"); [injection H as <- <-; lia|].
    destruct (Ascii.eqb d ","); [|discriminate].
    apply IH in H. pose proof (skip_ws_length s2). lia.
  - destruct s as [|q s1]; [discriminate|].
    destruct (negb (Ascii.eqb q dquote)); [discriminate|].
    destruct (scanstring s1 []) as [[key s2]|e] eqn:E; [|discriminate].
    apply (scanstring_length (n := length s1)) in E; [|lia].
    pose proof (skip_ws_length s2) as W2.
    destruct (skip_ws s2) as [|colon s3]; [discriminate|]. simpl in W2.
    destruct (negb (Ascii.eqb colon ":")); [discriminate|].
    destruct (decode ip fuel room MValue (skip_ws s3)) as [[value s4]| |] eqn:D;
      try discriminate.
    apply IH in D. pose proof (skip_ws_length s3) as W3.
    pose proof (skip_ws_length s4) as W4.
    destruct (skip_ws s4) as [|d s5]; [discriminate|]. simpl in W4.
    destruct (Ascii.eqb d "}"); [injection H as <- <-; simpl; lia|].
    destruct (Ascii.eqb d ","); [|discriminate].
    apply IH in H. pose proof (skip_ws_length s5). simpl. lia.
Qed.

Lemma decode_fuel_enough ip fuel : forall room md s,
    fuel_needed md s <= fuel -> decode ip fuel room md s <> Exhausted.
Proof.
  induction fuel as [|fuel IH]; intros room md s N.
  - destruct md; simpl in N; lia.
  - cbn [decode]. unfold errmsg, expecting. destruct md; cbn [fuel_needed] in N.
    + destruct s as [|c s1]; [discriminate|]. cbn [length] in N.
      destruct (Ascii.eqb c dquote).
      { destruct (scanstring s1 []) as [[str s2]|e]; discriminate. }
      destruct (Ascii.eqb c "{").
      { destruct room as [|room']; [discriminate|].
        pose proof (skip_ws_length s1) as W.
        destruct (skip_ws s1) as [|d s2]; [discriminate|]. simpl in W.
        destruct (Ascii.eqb d "}"); [discriminate|].
        apply IH. simpl. lia. }
      destruct (Ascii.eqb c "[").
      { destruct room as [|room']; [discriminate|].
        pose proof (skip_ws_length s1) as W.
        destruct (skip_ws s1) as [|d s2]; [discriminate|]. simpl in W.
        destruct (Ascii.eqb d "]"); [discriminate|].
        apply IH. simpl. lia. }
      destruct (after "null" (c :: s1)); [discriminate|].
      destruct (after "true" (c :: s1)); [discriminate|].
      destruct (after "false" (c :: s1)); [discriminate|].
      destruct (match_number (c :: s1));
        [destruct (too_many_digits _ _); discriminate|].
      unfold constant.
      destruct (after "NaN" (c :: s1)); [destruct room; discriminate|].
      destruct (after "Infinity" (c :: s1)); [destruct room; discriminate|].
      destruct (after "-Infinity" (c :: s1)); [destruct room|]; discriminate.
    + destruct (decode ip fuel room MValue s) as [[value s1]| |] eqn:E;
        try discriminate.
      * apply decode_length in E. pose proof (skip_ws_length s1) as W.
        destruct (skip_ws s1) as [|d s2]; [discriminate|]. simpl in W.
        destruct (Ascii.eqb d "]"); [discriminate|].
        destruct (Ascii.eqb d ","); [|discriminate].
        apply IH. pose proof (skip_ws_length s2). simpl. lia.
      * exfalso. revert E. apply IH. simpl. lia.
    + destruct s as [|q s1]; [discriminate|]. cbn [length] in N.
      destruct (negb (Ascii.eqb q dquote)); [discriminate|].
      destruct (scanstring s1 []) as [[key s2]|e] eqn:E; [|discriminate].
      apply (scanstring_length (n := length s1)) in E; [|lia].
      pose proof (skip_ws_length s2) as W2.
      destruct (skip_ws s2) as [|colon s3]; [discriminate|]. simpl in W2.
      destruct (negb (Ascii.eqb colon ":")); [discriminate|].
      pose proof (skip_ws_length s3) as W3.
      destruct (decode ip fuel room MValue (skip_ws s3)) as [[value s4]| |] eqn:D;
        try discriminate.
      * apply decode_length in D. pose proof (skip_ws_length s4) as W4.
        destruct (skip_ws s4) as [|d s5]; [discriminate|]. simpl in W4.
        destruct (Ascii.eqb d "}"); [discriminate|].
        destruct (Ascii.eqb d ","); [|discriminate].
        apply IH. pose proof (skip_ws_length s5). simpl. lia.
      * exfalso. revert D. apply IH. simpl. lia.
Qed.

(** [json_loads] returns the decoded value or raises the decoder's
    error: its last case is dead code. *)
Lemma json_loads_not_exhausted ip room text :
  let s := skip_ws (list_ascii_of_string text) in
  decode ip (2 * length s + 1) room MValue s <> Exhausted.
Proof. intros s. apply decode_fuel_enough. simpl. lia. Qed.

Lemma check_file_checked filepath rd :
  is_checked filepath = true -> exists msgs, check_file filepath rd = Ok msgs.
Proof.
  intros C. destruct rd as [content|e text]; simpl; [|eauto].
  rewrite check_file_violations_eq.
  destruct (is_camel_case_checked _ C) as [camel ->]. simpl. eauto.
Qed.

Lemma main_file_valid fs d all_violations filepath f :
  fs filepath = Some f -> is_checked filepath = true ->
  entry_valid d filepath (f_mtime f) = true ->
  main_file fs (PDict d, all_violations) filepath
  = Ok (PDict d,
        record_violations all_violations filepath (stored_violations d filepath)).
Proof.
  intros F C V. unfold main_file, entry_valid, stored_violations in *.
  rewrite F, C. cbn [py_get bind].
  destruct (dict_get d (codepoints filepath)) as [[| | | | | |e]|]; try discriminate.
  destruct (dict_get e key_mtime) as [stored|] eqn:M; [|discriminate].
  assert (T : truthy (PDict e) = true).
  { destruct e; [discriminate | reflexivity]. }
  rewrite T. cbn [py_get bind]. rewrite M, V. reflexivity.
Qed.

Lemma main_file_stale fs d all_violations filepath f :
  fs filepath = Some f -> is_checked filepath = true ->
  bad_entry d filepath = false ->
  entry_valid d filepath (f_mtime f) = false ->
  exists msgs,
    check_file filepath (f_read f) = Ok msgs
    /\ main_file fs (PDict d, all_violations) filepath
       = Ok (PDict (dict_set d (codepoints filepath)
                      (PDict [(key_mtime, PFloat (f_mtime f));
                              (key_violations, py_messages msgs)])),
             record_violations all_violations filepath (py_messages msgs)).
Proof.
  intros F C R V. destruct (check_file_checked filepath (f_read f) C) as [msgs E].
  exists msgs. split; [exact E|].
  unfold main_file, entry_valid, bad_entry, dict_lookup, no_get in *.
  rewrite F, C. cbn [py_get bind].
  destruct (dict_get d (codepoints filepath)) as [[| | | | | |e]|];
    try (rewrite R; cbn [bind]; rewrite E; reflexivity);
    try (cbn [truthy bind]; rewrite E; reflexivity).
  destruct e as [|p e].
  - cbn [truthy negb bind]. rewrite E. reflexivity.
  - cbn [truthy negb py_get bind].
    destruct (dict_get (p :: e) key_mtime) as [stored|].
    + rewrite V. cbn [bind]. rewrite E. reflexivity.
    + cbn [eq_float bind]. rewrite E. reflexivity.
Qed.


(** * The violations of a checked file, rule by rule *)

Lemma by_rule_uniform r r' vs :
  Forall (fun v => rule_of v = r') vs ->
  by_rule r vs = if rule_eqb r' r then vs else [].
Proof.
  unfold by_rule. induction vs as [|v vs IH]; intros F; simpl.
  - now destruct (rule_eqb r' r).
  - inversion F as [|? ? Hv F']; subst. rewrite (IH F').
    now destruct (rule_eqb (rule_of v) r).
Qed.

Lemma length_part_rule content : Forall (fun v => rule_of v = LengthRule) (length_part content).
Proof. unfold length_part. destruct (1000 <? _); repeat constructor. Qed.

Lemma name_part_rule filepath camel :
  Forall (fun v => rule_of v = FileNameRule) (name_part filepath camel).
Proof. unfold name_part. destruct (negb camel); repeat constructor. Qed.

Lemma count_part_rule filepath ts :
  Forall (fun v => rule_of v = TypeCountRule) (count_part filepath ts).
Proof.
  unfold count_part.
  destruct (is_header filepath), (is_source filepath), (1 <? length ts),
    (0 <? length ts); repeat constructor.
Qed.

Lemma pascal_part_rule mk names :
  (forall n, rule_of (mk n) = TypeNameRule) ->
  Forall (fun v => rule_of v = TypeNameRule) (pascal_part mk names).
Proof.
  intros H. unfold pascal_part. apply Forall_forall. intros v I.
  apply in_map_iff in I. destruct I as [n [<- _]]. apply H.
Qed.

Lemma var_part_rule content : Forall (fun v => rule_of v = VariableRule) (var_part content).
Proof.
  unfold var_part. apply Forall_forall. intros v I.
  apply in_flat_map in I. destruct I as [n [_ I]]. unfold classify_var in I.
  destruct (String.length n =? 1); [destruct I as [<-|[]]; reflexivity|].
  destruct (is_camel_case n) as [[|]|]; simpl in I; try contradiction.
  destruct I as [<-|[]]. reflexivity.
Qed.

Lemma func_part_rule content ts :
  Forall (fun v => rule_of v = FunctionRule) (func_part content ts).
Proof.
  unfold func_part. apply Forall_forall. intros v I.
  apply in_flat_map in I. destruct I as [m [_ I]]. unfold classify_func in I.
  destruct (exempt ts m); [contradiction|].
  destruct (is_camel_case (group1 m)) as [[|]|]; simpl in I; try contradiction.
  destruct I as [<-|[]]. reflexivity.
Qed.

Lemma by_rule_app r vs ws : by_rule r (vs ++ ws) = by_rule r vs ++ by_rule r ws.
Proof. apply filter_app. Qed.

(** What each rule contributed to the violations of a file. *)
Lemma by_rule_all_parts r filepath content camel :
  by_rule r (all_parts filepath content camel)
  = match r with
    | ReadRule => []
    | LengthRule => length_part content
    | FileNameRule => name_part filepath camel
    | TypeCountRule => count_part filepath (all_types_of content)
    | TypeNameRule =>
        pascal_part StructName (type_names content STRUCT_PATTERN)
        ++ pascal_part ClassName (type_names content CLASS_PATTERN)
        ++ pascal_part EnumName (type_names content ENUM_PATTERN)
    | VariableRule => var_part content
    | FunctionRule => func_part content (all_types_of content)
    end.
Proof.
  unfold all_parts. rewrite !by_rule_app.
  rewrite (by_rule_uniform r (length_part_rule content)).
  rewrite (by_rule_uniform r (name_part_rule filepath camel)).
  rewrite (by_rule_uniform r (count_part_rule filepath (all_types_of content))).
  rewrite (by_rule_uniform r (pascal_part_rule StructName _ (fun _ => eq_refl))).
  rewrite (by_rule_uniform r (pascal_part_rule ClassName _ (fun _ => eq_refl))).
  rewrite (by_rule_uniform r (pascal_part_rule EnumName _ (fun _ => eq_refl))).
  rewrite (by_rule_uniform r (var_part_rule content)).
  rewrite (by_rule_uniform r (func_part_rule content (all_types_of content))).
  destruct r; simpl; rewrite ?app_nil_r; reflexivity.
Qed.

(** On a path that [main] checks, [check_file] returns, and what it
    returns is the messages of [all_parts]. *)
Lemma check_file_parts filepath content :
  is_checked filepath = true ->
  exists camel,
    is_camel_case (basename filepath) = Ok camel
    /\ check_file_violations filepath content = Ok (all_parts filepath content camel)
    /\ check_file filepath (Content content)
       = Ok (map message (all_parts filepath content camel)).
Proof.
  intros C. destruct (is_camel_case_checked _ C) as [camel E]. exists camel.
  assert (V : check_file_violations filepath content
              = Ok (all_parts filepath content camel)).
  { rewrite check_file_violations_eq, E. reflexivity. }
  repeat split; [exact E | exact V |]. unfold check_file. now rewrite V.
Qed.

(** What the two casing tests compute. *)
Lemma is_camel_case_true name :
  is_camel_case name = Ok true <->
  name <> "" /\ exists c rest, stem name = String c rest /\ isupper c = false
                              /\ has_underscore (stem name) = false.
Proof.
  unfold is_camel_case. destruct (String.eqb name "") eqn:E.
  - apply String.eqb_eq in E. split; [discriminate|]. intros [N _]. contradiction.
  - apply String.eqb_neq in E. destruct (stem name) as [|c rest].
    + split; [discriminate|]. intros [_ [c [rest [H _]]]]. discriminate.
    + destruct (isupper c) eqn:U.
      * split; [discriminate|]. intros [_ [c' [rest' [H [U' _]]]]].
        injection H as <- <-. congruence.
      * destruct (has_underscore (String c rest)) eqn:X.
        -- split; [discriminate|]. intros [_ [c' [rest' [_ [_ X']]]]]. discriminate.
        -- split; [|reflexivity]. intros _. split; [exact E|]. exists c, rest. auto.
Qed.

Lemma is_pascal_case_true name :
  is_pascal_case name = true <->
  exists c rest, name = String c rest /\ islower c = false
                 /\ has_underscore name = false.
Proof.
  unfold is_pascal_case. destruct name as [|c rest].
  - split; [discriminate|]. intros [c [rest [H _]]]. discriminate.
  - destruct (islower c) eqn:L.
    + split; [discriminate|]. intros [c' [rest' [H [L' _]]]].
      injection H as <- <-. congruence.
    + destruct (has_underscore (String c rest)) eqn:X.
      * split; [discriminate|]. intros [c' [rest' [_ [_ X']]]]. discriminate.
      * split; [|reflexivity]. intros _. exists c, rest. auto.
Qed.

(** * The claims *)

Unset Implicit Arguments.



(** C10.  For every text and every offset in it, [get_type_nesting_depth]
    returns, and what it returns is not negative, whatever the balance of
    the braces: a closing brace met while the stack is empty leaves the
    depth and the stack as they are. *)
Theorem nesting_depth_nonneg content pos :
  pos <= String.length content ->
  (exists d, get_type_nesting_depth content pos = Ok d /\ (0 <= d)%Z)
  /\ (forall ns i d, scan_step ns i "}" (d, []) = (d, [])).
Proof.
  intros L. split.
  - exists (depth_at content pos). split.
    + now apply get_type_nesting_depth_in_range.
    + unfold depth_at. lia.
  - reflexivity.
Qed.

Lemma nesting_depth_nonneg_witness :
  (exists d, get_type_nesting_depth "} } struct A { }; }" 12 = Ok d /\ (0 <= d)%Z)
  /\ (forall ns i d, scan_step ns i "}" (d, []) = (d, [])).
Proof.
  apply (nesting_depth_nonneg "} } struct A { }; }" 12). vm_compute.
  repeat constructor.
Defined.

(** C5.  For every text and offset in it, [get_type_nesting_depth]
    returns the number of braces that are open at the offset and do not
    open a [namespace <name> {] block.  The brace of such a block leaves
    the depth as it is, and so does the brace that closes it.  A type
    directly inside a namespace is at depth 0 and is extracted; a type
    inside the body of another type is at depth 1 and is not. *)
Theorem nesting_depth_counts_type_braces content pos :
  pos <= String.length content ->
  get_type_nesting_depth content pos
  = Ok (Z.of_nat (length (type_braces (namespace_brace_positions content)
                                      (enclosing_braces content pos))))
  /\ (forall ns i d stack,
         is_namespace_brace ns i = true ->
         scan_step ns i "{" (d, stack) = (d, true :: stack))
  /\ (forall ns i d stack, scan_step ns i "}" (d, true :: stack) = (d, stack))
  /\ (let inside_namespace := "namespace foo { struct Bar { int x; }; }" in
      map m_start (finditer STRUCT_PATTERN inside_namespace) = [16]
      /\ get_type_nesting_depth inside_namespace 16 = Ok 0%Z
      /\ find_definitions inside_namespace STRUCT_PATTERN = Ok ["Bar"])
  /\ (let inside_type := "struct Outer { struct Inner { }; };" in
      map m_start (finditer STRUCT_PATTERN inside_type) = [0; 15]
      /\ get_type_nesting_depth inside_type 15 = Ok 1%Z
      /\ find_definitions inside_type STRUCT_PATTERN = Ok ["Outer"]).
Proof.
  intros L. split; [now apply get_type_nesting_depth_in_range|].
  split.
  { intros ns i d stack H. unfold scan_step. simpl. now rewrite H. }
  split; [reflexivity|].
  split; vm_compute; auto.
Qed.

Lemma nesting_depth_counts_type_braces_witness :
  get_type_nesting_depth "namespace a { class B { enum C { X }; }; }" 24
  = Ok (Z.of_nat (length (type_braces
                            (namespace_brace_positions
                               "namespace a { class B { enum C { X }; }; }")
                            (enclosing_braces
                               "namespace a { class B { enum C { X }; }; }" 24)))).
Proof.
  apply (nesting_depth_counts_type_braces
           "namespace a { class B { enum C { X }; }; }" 24).
  vm_compute. repeat constructor.
Defined.

Lemma is_definition_end_iff m :
  is_definition_end m = true <-> end_char m = Some "{"%char \/ end_char m = Some ":"%char.
Proof.
  unfold is_definition_end. destruct (end_char m) as [ch|].
  - unfold one_of. cbn [list_ascii_of_string existsb].
    rewrite orb_false_r, orb_true_iff, !Ascii.eqb_eq. split.
    + intros [->| ->]; auto.
    + intros [H|H]; injection H as ->; auto.
  - split; [discriminate|]. intros [H|H]; discriminate.
Qed.

(** C4.  For every text and pattern, [find_definitions] returns the names
    of the matches, in match order, whose last character is an opening
    brace or a colon and whose start is at nesting depth 0: a name is
    extracted exactly when such a match carries it, so [struct Foo;]
    alone gives nothing.  The loop of [check_file] over the struct, class
    and enum names keeps each name once, at its first place. *)
Theorem find_definitions_spec content pattern :
  exists names,
    find_definitions content pattern = Ok names
    /\ names = map group1
                 (filter (fun m => is_definition_end m
                                   && (depth_at content (m_start m) =? 0)%Z)
                         (finditer pattern content))
    /\ (forall name,
           In name names <->
           exists m, In m (finditer pattern content) /\ group1 m = name
                     /\ (end_char m = Some "{"%char \/ end_char m = Some ":"%char)
                     /\ get_type_nesting_depth content (m_start m) = Ok 0%Z)
    /\ find_definitions "struct Foo;" STRUCT_PATTERN = Ok []
    /\ (forall ts,
           dedup_loop ts [] [] = dedup_first ts
           /\ NoDup (dedup_first ts)
           /\ (forall t, In t (dedup_first ts) <-> In t ts)).
Proof.
  exists (type_names content pattern).
  split; [apply find_definitions_eq|]. split; [reflexivity|].
  split; [|split; [reflexivity|]].
  - intros name. unfold type_names. rewrite in_map_iff.
    pose proof (finditer_start_le content pattern) as F. rewrite Forall_forall in F.
    split.
    + intros [m [G I]]. apply filter_In in I. destruct I as [I T].
      unfold top_level_definition in T. apply andb_true_iff in T.
      destruct T as [T1 T2]. apply Z.eqb_eq in T2.
      exists m. repeat split; auto.
      * now apply is_definition_end_iff.
      * rewrite get_type_nesting_depth_in_range by auto. now rewrite T2.
    + intros [m [I [G [T1 T2]]]]. exists m. split; [exact G|].
      apply filter_In. split; [exact I|]. unfold top_level_definition.
      apply andb_true_iff. split; [now apply is_definition_end_iff|].
      rewrite get_type_nesting_depth_in_range in T2 by auto.
      injection T2 as ->. reflexivity.
  - intros ts. split; [|split].
    + now rewrite dedup_loop_eq, new_names_nil.
    + apply dedup_first_NoDup.
    + intros t. apply dedup_first_In.
Qed.

Lemma is_ident_length s : is_ident s = true -> 1 <= String.length s.
Proof. destruct s; [discriminate | simpl; lia]. Qed.

Lemma evaluated_names_ident content n :
  In n (evaluated_names content) -> is_ident n = true.
Proof.
  unfold evaluated_names. rewrite dedup_first_In, in_map_iff.
  intros [m [<- I]]. pose proof (var_matches_ident content) as F.
  rewrite Forall_forall in F. now apply F.
Qed.

(** C6.  For every checked file and every match of the function pattern:
    when the captured name is one of the extracted type names, or begins
    with [~], or the matched text shows the constructor form [Name::Name(]
    (with or without a blank before the parenthesis, as the source tests
    it), or the name is [main], or it begins with [operator], the match
    adds no violation; any other match adds exactly one function-naming
    violation when its name is not camelCase and none when it is.  The
    casing test never raises on a captured name.  [Foo::Foo(int x) { }]
    next to the type [Foo] adds no function-naming violation. *)
Theorem function_rule filepath content :
  is_checked filepath = true ->
  exists vs,
    check_file filepath (Content content) = Ok (map message vs)
    /\ by_rule FunctionRule vs
       = flat_map (classify_func (all_types_of content))
                  (finditer FUNCTION_PATTERN content)
    /\ (forall m, In m (finditer FUNCTION_PATTERN content) ->
          let name := group1 m in
          let ts := all_types_of content in
          (exists camel, is_camel_case name = Ok camel)
          /\ (str_in name ts = true \/ startswith name "~" = true
              \/ constructor_form name (m_group0 m) = true
              \/ name = "main" \/ startswith name "operator" = true ->
              classify_func ts m = [])
          /\ (str_in name ts = false -> startswith name "~" = false ->
              constructor_form name (m_group0 m) = false ->
              name <> "main" -> startswith name "operator" = false ->
              (is_camel_case name = Ok false -> classify_func ts m = [FuncName name])
              /\ (is_camel_case name = Ok true -> classify_func ts m = [])))
    /\ (let text := "class Foo { };
Foo::Foo(int x) { }" in
        all_types_of text = ["Foo"]
        /\ map group1 (finditer FUNCTION_PATTERN text) = ["Foo"]
        /\ func_part text (all_types_of text) = []).
Proof.
  intros C. destruct (check_file_parts filepath content C) as [camel [_ [_ E]]].
  exists (all_parts filepath content camel).
  split; [exact E|]. split; [apply (by_rule_all_parts FunctionRule)|].
  split; [|vm_compute; auto].
  intros m I name ts.
  pose proof (func_matches_ident content) as F. rewrite Forall_forall in F.
  pose proof (is_camel_case_ident _ (F m I)) as K. fold name in K.
  split; [eauto|]. unfold classify_func, exempt. fold name. split.
  - intros [H|[H|[H|[H|H]]]].
    + now rewrite H.
    + now rewrite H, orb_true_r.
    + now rewrite H, !orb_true_r.
    + apply String.eqb_eq in H. now rewrite H, !orb_true_r.
    + now rewrite H, !orb_true_r.
  - intros H1 H2 H3 H4 H5. apply String.eqb_neq in H4.
    rewrite H1, H2, H3, H4, H5. simpl.
    split; intros ->; reflexivity.
Qed.

Lemma function_rule_witness :
  exists vs,
    check_file "parser.cpp" (Content "void Parse_all(int count) {
}") = Ok (map message vs)
    /\ by_rule FunctionRule vs = [FuncName "Parse_all"].
Proof.
  destruct (function_rule "parser.cpp" "void Parse_all(int count) {
}" eq_refl) as [vs [E [B _]]].
  exists vs. split; [exact E|]. rewrite B. reflexivity.
Defined.

(** C7.  For every checked file, the variable rule evaluates each
    captured name once: the evaluated names are the names of the matches
    of the three patterns (auto, const reference, basic type, in that
    order) with later repeats of a name dropped.  An evaluated name of
    length 1 adds exactly one "too short" violation, whatever its case;
    one of length 2 or more adds one camelCase violation when
    [is_camel_case] is false on it and nothing when it is true. *)
Theorem variable_rule filepath content :
  is_checked filepath = true ->
  exists vs,
    check_file filepath (Content content) = Ok (map message vs)
    /\ by_rule VariableRule vs = flat_map classify_var (evaluated_names content)
    /\ evaluated_names content
       = dedup_first (map group1 (finditer AUTO_VAR_PATTERN content
                                  ++ finditer CONST_REF_VAR_PATTERN content
                                  ++ finditer BASIC_TYPE_VAR_PATTERN content))
    /\ NoDup (evaluated_names content)
    /\ (forall n, In n (evaluated_names content) <->
                  exists m, In m (var_matches content) /\ group1 m = n)
    /\ (forall n, In n (evaluated_names content) ->
          (String.length n = 1 \/ 2 <= String.length n)
          /\ (String.length n = 1 -> classify_var n = [VarShort n])
          /\ (2 <= String.length n ->
              exists camel, is_camel_case n = Ok camel
                            /\ classify_var n = if camel then [] else [VarCase n]))
    /\ (let text := "int count = 0; auto count2 = count;" in
        map group1 (var_matches text) = ["count2"; "count"]
        /\ evaluated_names text = ["count2"; "count"]
        /\ var_part text = []).
Proof.
  intros C. destruct (check_file_parts filepath content C) as [camel [_ [_ E]]].
  exists (all_parts filepath content camel).
  split; [exact E|]. split; [apply (by_rule_all_parts VariableRule)|].
  split.
  { unfold evaluated_names, var_matches, var_patterns. simpl.
    now rewrite app_nil_r. }
  split; [apply dedup_first_NoDup|].
  split.
  { intros n. unfold evaluated_names. rewrite dedup_first_In, in_map_iff.
    split; intros [m [A B]]; exists m; auto. }
  split; [|vm_compute; auto].
  intros n I. pose proof (evaluated_names_ident _ _ I) as Hn.
  pose proof (is_ident_length _ Hn) as L.
  split; [lia|]. unfold classify_var. split.
  - intros ->. reflexivity.
  - intros L2. exists (plain_camel n).
    rewrite (is_camel_case_ident _ Hn).
    destruct (String.length n =? 1) eqn:E1; [apply Nat.eqb_eq in E1; lia|].
    split; [reflexivity|]. now destruct (plain_camel n).
Qed.

Lemma variable_rule_witness :
  exists vs,
    check_file "token.hpp" (Content "int i = 0; const Token& Cur_tok = next; int i;")
    = Ok (map message vs)
    /\ by_rule VariableRule vs = [VarCase "Cur_tok"; VarShort "i"].
Proof.
  destruct (variable_rule "token.hpp"
              "int i = 0; const Token& Cur_tok = next; int i;" eq_refl)
    as [vs [E [B _]]].
  exists vs. split; [exact E|]. rewrite B. reflexivity.
Defined.

(** C1, as the code has it.  For every checked header (path ending in
    [.h] or [.hpp]) the type-count rule adds a violation exactly when at
    least 2 top-level types are extracted, and the violation lists all
    the names; a header with no type or one type gets none.  For every
    checked source file ([.c], [.cpp]) it adds one exactly when at least 1
    type is extracted, listing all the names.  On a path with another
    extension the rule adds nothing.  A header with exactly one
    PascalCase struct and nothing else has no violation at all; one with
    two structs has exactly the "too many types" violation naming both. *)
Theorem type_count_rule filepath content :
  (is_checked filepath = true ->
   exists vs,
     check_file filepath (Content content) = Ok (map message vs)
     /\ by_rule TypeCountRule vs
        = (let ts := all_types_of content in
           if is_header filepath
           then if 2 <=? length ts then [HeaderTypes ts] else []
           else if 1 <=? length ts then [SourceTypes ts] else []))
  /\ (is_header filepath = false -> is_source filepath = false ->
      forall vs, check_file_violations filepath content = Ok vs ->
                 by_rule TypeCountRule vs = [])
  /\ (forall ts,
         message (HeaderTypes ts)
         = ("Header has " ++ str_of_nat (length ts) ++ " types (only 1 allowed): "
            ++ String.concat ", " ts)%string
         /\ message (SourceTypes ts)
            = ("Source file has " ++ str_of_nat (length ts)
               ++ " type definitions (none allowed): " ++ String.concat ", " ts)%string)
  /\ check_file "vec.h" (Content "struct Vec {
};
") = Ok []
  /\ check_file "pair.h" (Content "struct First {
};
struct Second {
};
") = Ok ["Header has 2 types (only 1 allowed): First, Second"].
Proof.
  split; [|split; [|split; [|split; reflexivity]]].
  - intros C. destruct (check_file_parts filepath content C) as [camel [_ [_ E]]].
    exists (all_parts filepath content camel). split; [exact E|].
    rewrite (by_rule_all_parts TypeCountRule). unfold count_part. cbv zeta.
    destruct (is_header filepath) eqn:H.
    + now destruct (length (all_types_of content)) as [|[|n]].
    + assert (S : is_source filepath = true).
      { unfold is_checked, is_header, is_source in *.
        apply orb_false_iff in H. destruct H as [H1 H2]. rewrite H1, H2 in C.
        destruct (endswith filepath ".cpp"), (endswith filepath ".c");
          simpl in *; congruence. }
      rewrite S. now destruct (length (all_types_of content)).
  - intros H S vs E. rewrite check_file_violations_eq in E.
    destruct (is_camel_case (basename filepath)) as [camel|e]; [|discriminate].
    injection E as <-. fold (all_parts filepath content camel).
    rewrite (by_rule_all_parts TypeCountRule).
    unfold count_part. now rewrite H, S.
  - intros ts. split; reflexivity.
Qed.

Lemma type_count_rule_witness :
  exists vs,
    check_file "ast.cpp" (Content "enum class Kind : int { A };") = Ok (map message vs)
    /\ by_rule TypeCountRule vs = [SourceTypes ["Kind"]].
Proof.
  destruct (type_count_rule "ast.cpp" "enum class Kind : int { A };") as [H _].
  destruct (H eq_refl) as [vs [E B]].
  exists vs. split; [exact E|]. rewrite B. reflexivity.
Defined.

(** C1 as stated fails on a header without any type: zero types are
    extracted and [check_file] reports nothing, while the claim asks for
    a violation when the count is zero. *)
Lemma type_count_rule_counterexample :
  is_header "util.h" = true
  /\ all_types_of "int helper();" = []
  /\ check_file "util.h" (Content "int helper();") = Ok []
  /\ ~ (forall filepath content vs,
          is_header filepath = true ->
          check_file_violations filepath content = Ok vs ->
          (by_rule TypeCountRule vs <> [] <->
           length (all_types_of content) = 0 \/ 2 <= length (all_types_of content))).
Proof.
  split; [reflexivity|]. split; [reflexivity|]. split; [reflexivity|].
  intros H.
  specialize (H "util.h" "int helper();" [] eq_refl eq_refl).
  destruct H as [_ H]. apply H; [left|]; reflexivity.
Qed.

(** C8 at its failing inputs.  A name whose first character is a digit
    passes both tests: it is not upper case, so [is_camel_case] accepts
    it, and not lower case, so [is_pascal_case] accepts it, although it
    starts with neither a lower-case nor an upper-case letter.  The file
    [3bx.cpp] gets no file-name violation. *)
Theorem casing_accepts_digit_first :
  is_camel_case "3bx.cpp" = Ok true
  /\ stem "3bx.cpp" = "3bx" /\ islower "3" = false /\ has_underscore "3bx" = false
  /\ check_file "3bx.cpp" (Content "") = Ok []
  /\ is_pascal_case "9x" = true
  /\ isupper "9" = false /\ has_underscore "9x" = false.
Proof. repeat split; reflexivity. Qed.

(** * The cache *)

(** What the scanner raises: the StopIteration of a missing value, or
    one of the three errors of [json.load]. *)
Lemma decode_error ip fuel : forall room md s e,
    decode ip fuel room md s = Fail e -> e = StopIteration \/ decoder_error e.
Proof.
  assert (M : forall room e,
             Fail (A := pyval * list ascii)
                  (if error_cost ip <=? room then JSONDecodeError else RecursionError)
             = Fail e -> e = StopIteration \/ decoder_error e).
  { intros room e H. injection H as <-. right.
    destruct (error_cost ip <=? room); [left | right; right]; reflexivity. }
  induction fuel as [|fuel IH]; intros room md s e H; [discriminate|].
  cbn [decode] in H. unfold expecting, errmsg, constant in H. destruct md.
  - split_cases H; try discriminate H;
      try (eapply M; eassumption);
      try (eapply IH; eassumption);
      try (injection H as <-; first [ now left
                                    | right; left; reflexivity
                                    | right; right; left; reflexivity
                                    | right; right; right; reflexivity ]).
  - destruct (decode ip fuel room MValue s) as [[value s1]|e1|] eqn:E;
      try discriminate.
    + split_cases H; try discriminate H;
        try (eapply M; eassumption); try (eapply IH; eassumption);
        try (injection H as <-; right;
             first [left; reflexivity | right; right; reflexivity]).
    + injection H as <-. eapply IH; eassumption.
  - destruct s as [|q s1]; [eapply M; eassumption|].
    destruct (negb (Ascii.eqb q dquote)); [eapply M; eassumption|].
    destruct (scanstring s1 []) as [[key s2]|e1] eqn:E; [|eapply M; eassumption].
    destruct (skip_ws s2) as [|colon s3]; [eapply M; eassumption|].
    destruct (negb (Ascii.eqb colon ":")); [eapply M; eassumption|].
    destruct (decode ip fuel room MValue (skip_ws s3)) as [[value s4]|e1|] eqn:D;
      try discriminate.
    + split_cases H; try discriminate H;
        try (eapply M; eassumption); try (eapply IH; eassumption);
        try (injection H as <-; right;
             first [left; reflexivity | right; right; reflexivity]).
    + injection H as <-. eapply IH; eassumption.
Qed.

(** What [json.load] raises is the decoder's error or the error of one
    of the two limits. *)
Lemma json_loads_error ip text e : json_loads ip text = Raise e -> decoder_error e.
Proof.
  assert (M : forall n, decoder_error
                (if error_cost ip <=? n then JSONDecodeError else RecursionError)).
  { intros n. destruct (error_cost ip <=? n); [left | right; right]; reflexivity. }
  unfold json_loads. intros H.
  destruct (decode _ _ _ MValue _) as [[obj s']|e1|] eqn:D.
  - destruct (skip_ws s'); [discriminate|]. injection H as <-. apply M.
  - apply decode_error in D. destruct D as [->|D].
    + injection H as <-. apply M.
    + destruct D as [->|[->| ->]]; injection H as <-;
        [left | right; left | right; right]; reflexivity.
  - injection H as <-. now left.
Qed.

Lemma pystr_eqb_refl k : pystr_eqb k k = true.
Proof. induction k as [|x k IH]; simpl; [reflexivity|]. now rewrite N.eqb_refl. Qed.

Lemma dict_get_set {V} (d : list (pystr * V)) k v : dict_get (dict_set d k v) k = Some v.
Proof.
  induction d as [|[k' v'] d IH]; simpl.
  - now rewrite pystr_eqb_refl.
  - destruct (pystr_eqb k' k) eqn:E; simpl; rewrite E; [reflexivity | exact IH].
Qed.

(** C2, as the code has it.  [load_cache] returns an empty mapping when
    the cache file is missing, and what the file decodes to when it holds
    valid JSON within the limits of the interpreter.  When the file does
    not decode (JSONDecodeError, or ValueError on an integer of too many
    digits, or RecursionError on too deep a nesting), or cannot be read,
    the error is not caught: [load_cache] raises it and [main] ends with
    it before any file is checked. *)
Theorem load_cache_spec ip fs :
  (fs CACHE_FILE = None -> load_cache ip fs = Ok (PDict []))
  /\ (forall f text,
         fs CACHE_FILE = Some f -> f_read f = Content text ->
         load_cache ip fs = json_loads ip text
         /\ ((exists obj, load_cache ip fs = Ok obj)
             \/ load_cache ip fs = Raise JSONDecodeError
             \/ load_cache ip fs = Raise ValueError
             \/ load_cache ip fs = Raise RecursionError))
  /\ (forall f e text,
         fs CACHE_FILE = Some f -> f_read f = ReadError e text ->
         load_cache ip fs = Raise e)
  /\ (forall e arg argv,
         load_cache ip fs = Raise e -> main_until_save ip (arg :: argv) fs = Raise e)
  /\ load_cache sample_interpreter (sample_fs (Finite 0 0) sample_cache_text)
     = Ok (PDict sample_cache).
Proof.
  unfold load_cache. split; [intros ->; reflexivity|].
  split.
  { intros f text -> ->. split; [reflexivity|].
    destruct (json_loads ip text) as [obj|e] eqn:E; [eauto|].
    right. apply json_loads_error in E. destruct E as [->|[->| ->]]; auto. }
  split; [intros f e text -> ->; reflexivity|].
  split; [|vm_compute; reflexivity].
  intros e arg argv H. unfold main_until_save, load_cache. now rewrite H.
Qed.

Lemma load_cache_spec_witness :
  load_cache sample_interpreter (fun _ => None) = Ok (PDict [])
  /\ load_cache sample_interpreter (sample_fs (Finite 0 0) "[1, 2")
     = Raise JSONDecodeError
  /\ main_until_save sample_interpreter ["src/a.h"] (sample_fs (Finite 0 0) "[1, 2")
     = Raise JSONDecodeError
  /\ load_cache sample_interpreter (sample_fs (Finite 0 0) long_integer_text)
     = Raise ValueError
  /\ load_cache sample_interpreter (sample_fs (Finite 0 0) deep_text)
     = Raise RecursionError.
Proof.
  split; [|split; [|split; [|split]]].
  - apply (load_cache_spec sample_interpreter (fun _ => None)). reflexivity.
  - destruct (load_cache_spec sample_interpreter (sample_fs (Finite 0 0) "[1, 2"))
      as [_ [H _]].
    destruct (H (File (Finite 0 0) (Content "[1, 2")) "[1, 2" eq_refl eq_refl)
      as [E _].
    rewrite E. reflexivity.
  - destruct (load_cache_spec sample_interpreter (sample_fs (Finite 0 0) "[1, 2"))
      as [_ [_ [_ [H _]]]].
    apply H. reflexivity.
  - destruct (load_cache_spec sample_interpreter
                (sample_fs (Finite 0 0) long_integer_text)) as [_ [H _]].
    destruct (H (File (Finite 0 0) (Content long_integer_text)) long_integer_text
                eq_refl eq_refl) as [E _].
    rewrite E. vm_compute. reflexivity.
  - destruct (load_cache_spec sample_interpreter (sample_fs (Finite 0 0) deep_text))
      as [_ [H _]].
    destruct (H (File (Finite 0 0) (Content deep_text)) deep_text eq_refl eq_refl)
      as [E _].
    rewrite E. vm_compute. reflexivity.
Defined.

(** C2 as stated fails on a cache file that is not valid JSON, such as
    an empty file or a text cut after its first brace: [load_cache]
    gives no mapping, it raises the decoder's error (on the empty file
    an error whatever the limits of the interpreter). *)
Lemma load_cache_counterexample :
  load_cache sample_interpreter (sample_fs (Finite 0 0) "") = Raise JSONDecodeError
  /\ load_cache sample_interpreter (sample_fs (Finite 0 0) "{") = Raise JSONDecodeError
  /\ (forall ip, exists e, load_cache ip (sample_fs (Finite 0 0) "") = Raise e)
  /\ ~ (forall ip fs, exists mapping, load_cache ip fs = Ok mapping).
Proof.
  split; [reflexivity|]. split; [reflexivity|]. split.
  - intros ip. eexists. reflexivity.
  - intros H.
    destruct (H sample_interpreter (sample_fs (Finite 0 0) "")) as [mapping M].
    discriminate M.
Qed.

(** C3, as the code has it.  For every checked file and every cache that
    is a dict: the entry of the path is valid exactly when it is a
    record with a stored time equal to the current modification time of
    the file; when it is valid the stored violation list is taken as it
    is and the cache is left alone; when it is not valid and the cached
    object is absent, a record or an object that counts as false, the
    violations are those [check_file] computes and the entry of the path
    is overwritten with the current time and these violations.  When the
    cached object counts as true and is no record (a non-empty list or
    string, a non-zero number, [True]) nothing is reused or recomputed:
    [cached.get] raises AttributeError, as [cache.get] does when the
    cache itself is no dict. *)
Theorem cache_entry_reuse fs d all_violations filepath f :
  fs filepath = Some f -> is_checked filepath = true ->
  (entry_valid d filepath (f_mtime f) = true <->
   exists e stored,
     dict_get d (codepoints filepath) = Some (PDict e)
     /\ dict_get e key_mtime = Some stored /\ eq_float stored (f_mtime f) = true)
  /\ (entry_valid d filepath (f_mtime f) = true ->
      bad_entry d filepath = false
      /\ main_file fs (PDict d, all_violations) filepath
         = Ok (PDict d,
               record_violations all_violations filepath (stored_violations d filepath)))
  /\ (entry_valid d filepath (f_mtime f) = false ->
      bad_entry d filepath = false ->
      exists msgs,
        check_file filepath (f_read f) = Ok msgs
        /\ (let entry := PDict [(key_mtime, PFloat (f_mtime f));
                                (key_violations, py_messages msgs)] in
            main_file fs (PDict d, all_violations) filepath
            = Ok (PDict (dict_set d (codepoints filepath) entry),
                  record_violations all_violations filepath (py_messages msgs))
            /\ dict_get (dict_set d (codepoints filepath) entry) (codepoints filepath)
               = Some entry))
  /\ (bad_entry d filepath = true ->
      entry_valid d filepath (f_mtime f) = false
      /\ main_file fs (PDict d, all_violations) filepath = Raise AttributeError)
  /\ (forall cache,
        (forall d', cache <> PDict d') ->
        main_file fs (cache, all_violations) filepath = Raise AttributeError).
Proof.
  intros F C. split; [|split; [|split; [|split]]].
  - unfold entry_valid. split.
    + destruct (dict_get d (codepoints filepath)) as [[| | | | | |e]|];
        try discriminate.
      destruct (dict_get e key_mtime) as [stored|] eqn:M; [|discriminate].
      intros H. exists e, stored. auto.
    + intros [e [stored [-> [-> H]]]]. exact H.
  - intros V. split; [|exact (@main_file_valid fs d all_violations filepath f F C V)].
    unfold entry_valid in V. unfold bad_entry, dict_lookup.
    destruct (dict_get d (codepoints filepath)) as [[| | | | | |e]|];
      try discriminate V. reflexivity.
  - intros V B. destruct (@main_file_stale fs d all_violations filepath f F C B V)
      as [msgs [E M]].
    exists msgs. split; [exact E|]. cbv zeta. split; [exact M|].
    apply dict_get_set.
  - intros B. unfold bad_entry, dict_lookup, no_get in B. unfold entry_valid, main_file.
    rewrite F, C. cbn [py_get bind].
    destruct (dict_get d (codepoints filepath)) as [[| | | | | |e]|];
      try discriminate B; rewrite B; split; reflexivity.
  - intros cache N. unfold main_file. rewrite F, C.
    destruct cache as [| | | | | |d']; try reflexivity.
    exfalso. exact (N d' eq_refl).
Qed.

Lemma cache_entry_reuse_witness :
  main_file (sample_fs (Finite 3400000001 (-1)) "") (PDict sample_cache, []) "src/a.h"
  = Ok (PDict sample_cache,
        [(codepoints "src/a.h",
          PList [PStr (codepoints "File has 1200 lines (max 1000 allowed)")])])
  /\ main_file (sample_fs (Finite 3400000003 (-1)) "") (PDict sample_cache, []) "src/a.h"
     = Ok (PDict [(codepoints "src/a.h",
                   PDict [(key_mtime, PFloat (Finite 3400000003 (-1)));
                          (key_violations, PList [])])],
           []).
Proof.
  split.
  - destruct (cache_entry_reuse (sample_fs (Finite 3400000001 (-1)) "") sample_cache []
                "src/a.h" (File (Finite 3400000001 (-1)) (Content "struct A {
};
")) eq_refl eq_refl) as [_ [H _]].
    destruct (H eq_refl) as [_ M]. rewrite M. reflexivity.
  - destruct (cache_entry_reuse (sample_fs (Finite 3400000003 (-1)) "") sample_cache []
                "src/a.h" (File (Finite 3400000003 (-1)) (Content "struct A {
};
")) eq_refl eq_refl) as [_ [_ [H _]]].
    destruct (H eq_refl eq_refl) as [msgs [E [M _]]]. rewrite M.
    vm_compute in E. injection E as <-. reflexivity.
Defined.

(** C3 as stated fails on a cache whose entry for the file is no record,
    here the list [[1]] that the cache text [{"src/a.h": [1]}] decodes
    to: the entry has no stored time, so the claim asks for a
    recomputation and an overwrite, and the loop raises AttributeError
    instead. *)
Lemma cache_entry_reuse_counterexample :
  load_cache sample_interpreter
    (sample_fs (Finite 0 0) ("{" ++ quoted "src/a.h" ++ ": [1]}"))
  = Ok (PDict [(codepoints "src/a.h", PList [PInt 1])])
  /\ entry_valid [(codepoints "src/a.h", PList [PInt 1])] "src/a.h" (Finite 0 0) = false
  /\ main_file (sample_fs (Finite 0 0) "")
               (PDict [(codepoints "src/a.h", PList [PInt 1])], []) "src/a.h"
     = Raise AttributeError
  /\ ~ (forall fs d all_violations filepath f,
          fs filepath = Some f -> is_checked filepath = true ->
          entry_valid d filepath (f_mtime f) = false ->
          exists msgs,
            check_file filepath (f_read f) = Ok msgs
            /\ main_file fs (PDict d, all_violations) filepath
               = Ok (PDict (dict_set d (codepoints filepath)
                              (PDict [(key_mtime, PFloat (f_mtime f));
                                      (key_violations, py_messages msgs)])),
                     record_violations all_violations filepath (py_messages msgs))).
Proof.
  split; [vm_compute; reflexivity|]. split; [reflexivity|]. split; [reflexivity|].
  intros H.
  destruct (H (sample_fs (Finite 0 0) "") [(codepoints "src/a.h", PList [PInt 1])] []
              "src/a.h" (File (Finite 0 0) (Content "struct A {
};
")) eq_refl eq_refl eq_refl) as [msgs [_ M]].
  discriminate M.
Qed.

(** * Further properties of the casing predicates and the scope tracker *)

(** The first character of an identifier: an underscore, an upper-case
    letter or a lower-case letter of ASCII, and how the tests of Python
    see each. *)
Lemma ident_start_cases c :
  ident_start c = true ->
  (c = "_"%char /\ isupper c = false /\ islower c = false)
  \/ (ascii_upper c = true /\ ascii_lower c = false
      /\ isupper c = true /\ islower c = false)
  \/ (ascii_lower c = true /\ ascii_upper c = false
      /\ islower c = true /\ isupper c = false).
Proof.
  destruct c as [[] [] [] [] [] [] [] []]; vm_compute; intros H;
    try discriminate H; auto 10.
Qed.

Lemma has_underscore_head rest : has_underscore (String "_" rest) = true.
Proof. unfold has_underscore. cbn [contains prefix]. now destruct rest. Qed.

Lemma is_ident_head n :
  is_ident n = true -> exists c rest, n = String c rest /\ ident_start c = true.
Proof.
  destruct n as [|c rest]; [discriminate|]. unfold is_ident.
  cbn [list_ascii_of_string is_ident_chars]. intros H.
  apply andb_true_iff in H. destruct H as [H _]. eauto.
Qed.

(** X1.  On an identifier (what the patterns capture) the two casing
    tests are what their docstrings say: camelCase is a lower-case first
    letter and no underscore, PascalCase an upper-case first letter and
    no underscore.  A name with an underscore fails both; a name without
    one passes exactly one of them. *)
Theorem casing_on_identifiers n :
  is_ident n = true ->
  (is_camel_case n = Ok true <->
   exists c rest, n = String c rest /\ ascii_lower c = true
                  /\ has_underscore n = false)
  /\ (is_pascal_case n = true <->
      exists c rest, n = String c rest /\ ascii_upper c = true
                     /\ has_underscore n = false)
  /\ (has_underscore n = true ->
      is_camel_case n = Ok false /\ is_pascal_case n = false)
  /\ (has_underscore n = false ->
      is_camel_case n = Ok (negb (is_pascal_case n))).
Proof.
  intros I. rewrite (is_camel_case_ident _ I).
  destruct (is_ident_head _ I) as [c [rest [-> S]]].
  unfold plain_camel, is_pascal_case.
  remember (has_underscore (String c rest)) as h eqn:Hh.
  assert (F : forall (b : bool) (P : ascii -> bool),
             (b = true <-> P c = true /\ h = false) ->
             (b = true <->
              exists c' rest', String c rest = String c' rest' /\ P c' = true
                               /\ h = false)).
  { intros b P [F1 F2]. split.
    - intros H. exists c, rest. destruct (F1 H). auto.
    - intros [c' [rest' [E [A B]]]]. injection E as <- <-. auto. }
  assert (G : forall b : bool, Ok b = Ok true <-> b = true).
  { intros b. split; [intros H; now injection H | intros ->; reflexivity]. }
  rewrite G.
  destruct (ident_start_cases _ S)
    as [[-> [U L]]|[[AU [AL [U L]]]|[AL [AU [L U]]]]];
    try (rewrite has_underscore_head in Hh); rewrite U, L; cbn [negb andb].
  - subst h. split; [apply (F _ ascii_lower); split;
                     [discriminate | intros [_ H]; discriminate]|].
    split; [apply (F _ ascii_upper); split;
            [discriminate | intros [_ H]; discriminate]|].
    split; [auto | discriminate].
  - split; [apply (F _ ascii_lower); rewrite AL; split;
            [discriminate | intros [H _]; discriminate]|].
    split; [apply (F _ ascii_upper); rewrite AU;
            destruct h; split; auto; intros [_ H]; discriminate|].
    destruct h; split; auto; discriminate.
  - split; [apply (F _ ascii_lower); rewrite AL;
            destruct h; split; auto; intros [_ H]; discriminate|].
    split; [apply (F _ ascii_upper); rewrite AU; split;
            [discriminate | intros [H _]; discriminate]|].
    destruct h; split; auto; discriminate.
Qed.

Lemma casing_on_identifiers_witness :
  is_camel_case "tokenCount" = Ok (negb (is_pascal_case "tokenCount")).
Proof.
  destruct (casing_on_identifiers "tokenCount" eq_refl) as [_ [_ [_ H]]].
  apply H. reflexivity.
Defined.

Lemma filter_none {X} (f : X -> bool) l :
  filter f l = [] <-> Forall (fun x => f x = false) l.
Proof.
  induction l as [|x l IH]; simpl; [split; auto|].
  destruct (f x) eqn:E; split; intros H.
  - discriminate.
  - inversion H; congruence.
  - constructor; [exact E | now apply IH].
  - inversion H; subst. now apply IH.
Qed.

Lemma last_of_nonempty (l : list string) :
  Forall (fun w => w <> "") l -> last l "" = "" -> l = [].
Proof.
  induction l as [|w l IH]; intros F H; [reflexivity|].
  inversion F as [|? ? Hw F']; subst. destruct l as [|w' l].
  - simpl in H. contradiction.
  - change (last (w' :: l) "" = "") in H. specialize (IH F' H). discriminate.
Qed.

Lemma path_name_empty p :
  path_name p = "" <-> Forall (fun w => w = "" \/ w = ".") (split_on "/" p).
Proof.
  unfold path_name.
  set (keep := fun w => negb (String.eqb w "" || String.eqb w ".")).
  assert (K : forall w, keep w = false <-> w = "" \/ w = ".").
  { intros w. unfold keep. rewrite negb_false_iff, orb_true_iff, !String.eqb_eq.
    tauto. }
  split.
  - intros H. apply last_of_nonempty in H.
    + apply filter_none in H. eapply Forall_impl; [|exact H].
      intros w. apply K.
    + apply Forall_forall. intros w I. apply filter_In in I. destruct I as [_ I].
      intros ->. discriminate.
  - intros H. assert (E : filter keep (split_on "/" p) = []).
    { apply filter_none. eapply Forall_impl; [|exact H]. intros w. apply K. }
    now rewrite E.
Qed.

Lemma stem_empty p : stem p = "" <-> path_name p = "".
Proof.
  split.
  - intros H. destruct (path_name p) eqn:E; [reflexivity|].
    exfalso. apply (stem_nonempty p); [rewrite E; discriminate | exact H].
  - intros H. unfold stem. now rewrite H.
Qed.

(** X2.  [is_camel_case] raises exactly on a name that is not empty and
    has no final path component (every part between slashes is empty or
    a dot, as in [/] or [.]): taking the first character of the empty
    stem is an [IndexError].  On any other name it returns. *)
Theorem is_camel_case_raises name e :
  is_camel_case name = Raise e <->
  e = IndexError /\ name <> ""
  /\ Forall (fun w => w = "" \/ w = ".") (split_on "/" name).
Proof.
  rewrite <- path_name_empty, <- stem_empty. unfold is_camel_case.
  destruct (String.eqb name "") eqn:N.
  - apply String.eqb_eq in N. split; [discriminate|]. intros [_ [H _]]. contradiction.
  - apply String.eqb_neq in N. destruct (stem name) as [|c rest].
    + split; [intros H; injection H as <-; auto | intros [-> _]; reflexivity].
    + split; [destruct (isupper c); [|destruct (has_underscore _)]; discriminate|].
      intros [_ [_ H]]. discriminate.
Qed.

(** X3.  [get_type_nesting_depth] returns for every offset up to the
    length of the text and raises [IndexError] for every offset beyond
    it (the loop reads [content[i]] for each [i] below the offset). *)
Theorem nesting_depth_bounds content pos :
  (pos <= String.length content <->
   exists d, get_type_nesting_depth content pos = Ok d)
  /\ (String.length content < pos <->
      get_type_nesting_depth content pos = Raise IndexError).
Proof.
  destruct (Nat.le_gt_cases pos (String.length content)) as [L|L].
  - rewrite (@get_type_nesting_depth_in_range content pos L). split; split; eauto.
    + lia.
    + discriminate.
  - rewrite (@get_type_nesting_depth_past_end content pos L). split; split; auto.
    + lia.
    + intros [d H]. discriminate.
Qed.

Lemma open_braces_app l1 : forall i l2 open,
    open_braces i (l1 ++ l2) open
    = open_braces (i + length l1) l2 (open_braces i l1 open).
Proof.
  induction l1 as [|ch l1 IH]; intros i l2 open; simpl.
  - now rewrite Nat.add_0_r.
  - rewrite IH. f_equal. lia.
Qed.

Lemma firstn_snoc {X} (l : list X) : forall n x,
    nth_error l n = Some x -> firstn (S n) l = firstn n l ++ [x].
Proof.
  induction l as [|y l IH]; intros n x H.
  - destruct n; discriminate.
  - destruct n as [|n]; simpl in H.
    + injection H as ->. reflexivity.
    + change (firstn (S (S n)) (y :: l)) with (y :: firstn (S n) l).
      rewrite (IH n x H). reflexivity.
Qed.

Lemma get_nth_error s : forall n,
    String.get n s = nth_error (list_ascii_of_string s) n.
Proof.
  induction s as [|a s IH]; intros [|n]; simpl; auto.
Qed.

Lemma enclosing_braces_step content pos ch :
  String.get pos content = Some ch ->
  enclosing_braces content (S pos) = brace_step pos ch (enclosing_braces content pos).
Proof.
  rewrite get_nth_error. intros H. unfold enclosing_braces.
  rewrite (firstn_snoc _ pos ch H), open_braces_app. cbn [open_braces].
  assert (L : pos < length (list_ascii_of_string content)).
  { apply nth_error_Some. congruence. }
  rewrite length_firstn, Nat.min_l by lia. reflexivity.
Qed.

(** X4.  Only braces change the nesting depth, and by one at most: going
    over the character at an offset, an opening brace adds one unless it
    opens a named namespace, a closing brace takes one off when the
    innermost open brace is not a namespace brace (and does nothing when
    no brace is open), and any other character leaves the depth as it
    is. *)
Theorem nesting_depth_step content pos ch :
  String.get pos content = Some ch ->
  exists d d',
    get_type_nesting_depth content pos = Ok d
    /\ get_type_nesting_depth content (S pos) = Ok d'
    /\ d' = (let ns := namespace_brace_positions content in
             if Ascii.eqb ch "{" then
               if is_namespace_brace ns pos then d else d + 1
             else if Ascii.eqb ch "}" then
               match enclosing_braces content pos with
               | [] => d
               | p :: _ => if is_namespace_brace ns p then d else d - 1
               end
             else d)%Z
    /\ (d - 1 <= d' <= d + 1)%Z.
Proof.
  intros H.
  assert (L : pos < String.length content).
  { rewrite get_nth_error in H. rewrite <- length_chars.
    apply nth_error_Some. congruence. }
  exists (depth_at content pos), (depth_at content (S pos)).
  split; [apply get_type_nesting_depth_in_range; lia|].
  split; [apply get_type_nesting_depth_in_range; lia|].
  unfold depth_at. rewrite (enclosing_braces_step content pos ch H). cbv zeta.
  unfold brace_step, type_braces.
  destruct (Ascii.eqb ch "{").
  - cbn [filter]. destruct (is_namespace_brace _ pos); cbn [negb length]; lia.
  - destruct (Ascii.eqb ch "}"); [|lia].
    destruct (enclosing_braces content pos) as [|p open]; cbn [tl filter]; [simpl; lia|].
    destruct (is_namespace_brace _ p); cbn [negb length]; lia.
Qed.

Lemma nesting_depth_step_witness :
  exists d d',
    get_type_nesting_depth "namespace n { struct S { }; }" 12 = Ok d
    /\ get_type_nesting_depth "namespace n { struct S { }; }" 13 = Ok d'
    /\ d' = d.
Proof.
  destruct (nesting_depth_step "namespace n { struct S { }; }" 12 "{" eq_refl)
    as [d [d' [E [E' [D _]]]]].
  exists d, d'. split; [exact E|]. split; [exact E'|]. rewrite D. reflexivity.
Defined.

(** * Further properties of [check_file] *)

Lemma in_by_rule v vs : In v vs <-> In v (by_rule (rule_of v) vs).
Proof.
  unfold by_rule. rewrite filter_In. split; [|tauto].
  intros H. split; [exact H|]. now destruct (rule_of v).
Qed.

(** X5.  On every path that [main] checks, [check_file] returns normally
    on a readable file, and its messages come in the order of the rules:
    length, file name, type count, struct names, class names, enum names,
    variables, functions.  On an unreadable file it returns the single
    message of the read error, whatever the path. *)
Theorem check_file_rule_order filepath content :
  is_checked filepath = true ->
  (exists camel,
      is_camel_case (basename filepath) = Ok camel
      /\ check_file filepath (Content content)
         = Ok (map message
                 (length_part content ++ name_part filepath camel
                  ++ count_part filepath (all_types_of content)
                  ++ pascal_part StructName (type_names content STRUCT_PATTERN)
                  ++ pascal_part ClassName (type_names content CLASS_PATTERN)
                  ++ pascal_part EnumName (type_names content ENUM_PATTERN)
                  ++ var_part content
                  ++ func_part content (all_types_of content))))
  /\ (forall e text,
         check_file filepath (ReadError e text)
         = Ok [("Could not read file: " ++ text)%string]).
Proof.
  intros C. split; [|reflexivity].
  destruct (check_file_parts filepath content C) as [camel [E [_ F]]].
  exists camel. split; [exact E | exact F].
Qed.

Lemma check_file_rule_order_witness :
  check_file "Bad_name.cpp" (Content "struct low_case {
};
int X = 0;
void Do_it() {
}")
  = Ok ["File name 'Bad_name.cpp' should be camelCase";
        "Source file has 1 type definitions (none allowed): low_case";
        "Struct 'low_case' should be PascalCase";
        "Variable 'X' is too short (use descriptive names)";
        "Function 'Do_it' should be camelCase"].
Proof.
  destruct (check_file_rule_order "Bad_name.cpp" "struct low_case {
};
int X = 0;
void Do_it() {
}" eq_refl) as [[camel [K E]] _].
  vm_compute in K. injection K as <-. rewrite E. vm_compute. reflexivity.
Defined.

(** X6.  For every checked file, the file-name rule adds one violation,
    naming the base name, exactly when [is_camel_case] is false on the
    base name, that is when the stem of the base name starts with an
    upper-case letter or holds an underscore; the directories of the
    path play no part. *)
Theorem file_name_rule filepath content :
  is_checked filepath = true ->
  exists vs camel,
    check_file filepath (Content content) = Ok (map message vs)
    /\ is_camel_case (basename filepath) = Ok camel
    /\ by_rule FileNameRule vs
       = (if camel then [] else [FileName (basename filepath)])
    /\ (camel = true <->
        exists c rest,
          stem (basename filepath) = String c rest /\ isupper c = false
          /\ has_underscore (stem (basename filepath)) = false).
Proof.
  intros C. destruct (check_file_parts filepath content C) as [camel [E [_ F]]].
  exists (all_parts filepath content camel), camel.
  split; [exact F|]. split; [exact E|].
  split.
  - rewrite (by_rule_all_parts FileNameRule). unfold name_part. now destruct camel.
  - pose proof (is_camel_case_true (basename filepath)) as T. rewrite E in T.
    split.
    + intros ->. now apply T.
    + intros H. assert (N : basename filepath <> "").
      { intros Z. rewrite Z in H. destruct H as [c [rest [H _]]]. discriminate. }
      destruct T as [_ T]. specialize (T (conj N H)). now injection T.
Qed.

Lemma file_name_rule_witness :
  exists vs,
    check_file "Old_Code/lexer.cpp" (Content "") = Ok (map message vs)
    /\ by_rule FileNameRule vs = [].
Proof.
  destruct (file_name_rule "Old_Code/lexer.cpp" "" eq_refl)
    as [vs [camel [E [K [B _]]]]].
  exists vs. split; [exact E|]. rewrite B.
  vm_compute in K. injection K as <-. reflexivity.
Defined.

Lemma in_pascal_part mk names n :
  (forall a b, mk a = mk b -> a = b) ->
  In (mk n) (pascal_part mk names) <-> In n names /\ is_pascal_case n = false.
Proof.
  intros J. unfold pascal_part. rewrite in_map_iff. split.
  - intros [x [E I]]. apply J in E. subst x. apply filter_In in I.
    destruct I as [I P]. apply negb_true_iff in P. auto.
  - intros [I P]. exists n. split; [reflexivity|]. apply filter_In.
    split; [exact I|]. now apply negb_true_iff.
Qed.

Lemma not_in_pascal_part mk names v :
  (forall a, mk a <> v) -> ~ In v (pascal_part mk names).
Proof.
  intros D I. unfold pascal_part in I. apply in_map_iff in I.
  destruct I as [x [E _]]. exact (D x E).
Qed.

Lemma type_names_ident content pattern n :
  captures_ident pattern -> In n (type_names content pattern) -> is_ident n = true.
Proof.
  intros C I. unfold type_names in I. apply in_map_iff in I.
  destruct I as [m [<- I]]. apply filter_In in I. destruct I as [I _].
  eapply finditer_group1_ident; eassumption.
Qed.

(** X7.  For every checked file, the type-naming rule reports each
    extracted struct, class and enum name on which [is_pascal_case] is
    false, structs first, then classes, then enums, once per extracted
    definition and kind (no removal of duplicates here): a struct name
    is reported exactly when it is among the names [find_definitions]
    gives for the struct pattern and is not PascalCase. *)
Theorem type_name_rule filepath content :
  is_checked filepath = true ->
  exists vs structs classes enums,
    check_file filepath (Content content) = Ok (map message vs)
    /\ find_definitions content STRUCT_PATTERN = Ok structs
    /\ find_definitions content CLASS_PATTERN = Ok classes
    /\ find_definitions content ENUM_PATTERN = Ok enums
    /\ by_rule TypeNameRule vs
       = map StructName (filter (fun n => negb (is_pascal_case n)) structs)
         ++ map ClassName (filter (fun n => negb (is_pascal_case n)) classes)
         ++ map EnumName (filter (fun n => negb (is_pascal_case n)) enums)
    /\ (forall n, In (StructName n) vs <-> In n structs /\ is_pascal_case n = false)
    /\ (forall n, In (ClassName n) vs <-> In n classes /\ is_pascal_case n = false)
    /\ (forall n, In (EnumName n) vs <-> In n enums /\ is_pascal_case n = false).
Proof.
  intros C. destruct (check_file_parts filepath content C) as [camel [_ [_ F]]].
  exists (all_parts filepath content camel), (type_names content STRUCT_PATTERN),
    (type_names content CLASS_PATTERN), (type_names content ENUM_PATTERN).
  split; [exact F|]. rewrite !find_definitions_eq.
  split; [reflexivity|]. split; [reflexivity|]. split; [reflexivity|].
  pose proof (by_rule_all_parts TypeNameRule filepath content camel) as B.
  cbv iota in B. split; [exact B|].
  assert (S : forall a b, StructName a = StructName b -> a = b) by (intros; congruence).
  assert (K : forall a b, ClassName a = ClassName b -> a = b) by (intros; congruence).
  assert (E : forall a b, EnumName a = EnumName b -> a = b) by (intros; congruence).
  split; [|split]; intros n.
  - rewrite in_by_rule. cbn [rule_of]. rewrite B, !in_app_iff.
    rewrite (in_pascal_part StructName _ n S). split; [|tauto].
    intros [H|[H|H]]; [exact H| |];
      exfalso; revert H; apply not_in_pascal_part; discriminate.
  - rewrite in_by_rule. cbn [rule_of]. rewrite B, !in_app_iff.
    rewrite (in_pascal_part ClassName _ n K). split; [|tauto].
    intros [H|[H|H]]; [|exact H|];
      exfalso; revert H; apply not_in_pascal_part; discriminate.
  - rewrite in_by_rule. cbn [rule_of]. rewrite B, !in_app_iff.
    rewrite (in_pascal_part EnumName _ n E). split; [|tauto].
    intros [H|[H|H]]; [| |exact H];
      exfalso; revert H; apply not_in_pascal_part; discriminate.
Qed.

Lemma type_name_rule_witness :
  exists vs,
    check_file "shape.hpp" (Content "enum class shape_kind : int { round };")
    = Ok (map message vs)
    /\ by_rule TypeNameRule vs = [ClassName "shape_kind"; EnumName "shape_kind"].
Proof.
  destruct (type_name_rule "shape.hpp" "enum class shape_kind : int { round };" eq_refl)
    as [vs [structs [classes [enums [E [S [K [N [B _]]]]]]]]].
  exists vs. split; [exact E|]. rewrite B.
  vm_compute in S, K, N. injection S as <-. injection K as <-. injection N as <-.
  reflexivity.
Defined.

Lemma is_ident_no_tilde n : is_ident n = true -> startswith n "~" = false.
Proof.
  intros I. destruct (is_ident_head _ I) as [c [rest [-> S]]].
  unfold startswith. cbn [prefix].
  destruct (ascii_dec "~" c) as [<-|N]; [discriminate S | reflexivity].
Qed.

(** X8.  Whatever the text, each of the seven patterns captures an
    identifier (a letter or underscore, then letters, digits and
    underscores) at a start offset inside the text.  So the casing tests
    never raise on a captured name, no captured name has length 0, and
    the exemption of the function rule for a name that begins with [~]
    can never apply. *)
Theorem captured_names_are_identifiers content pattern m :
  In pattern [STRUCT_PATTERN; CLASS_PATTERN; ENUM_PATTERN; AUTO_VAR_PATTERN;
              CONST_REF_VAR_PATTERN; BASIC_TYPE_VAR_PATTERN; FUNCTION_PATTERN] ->
  In m (finditer pattern content) ->
  is_ident (group1 m) = true
  /\ m_group1 m = Some (group1 m)
  /\ 1 <= String.length (group1 m)
  /\ m_start m <= String.length content
  /\ (exists camel, is_camel_case (group1 m) = Ok camel)
  /\ startswith (group1 m) "~" = false.
Proof.
  intros P I. pose proof captures_ident_patterns as C.
  rewrite Forall_forall in C. specialize (C pattern P).
  pose proof (@finditer_group1_ident content pattern m C I) as G.
  split; [exact G|]. split.
  { unfold group1 in *. destruct (m_group1 m); [reflexivity | discriminate G]. }
  split; [now apply is_ident_length|]. split.
  { pose proof (finditer_start_le content pattern) as F.
    rewrite Forall_forall in F. now apply F. }
  split; [rewrite (is_camel_case_ident _ G); eauto|].
  now apply is_ident_no_tilde.
Qed.

Lemma captured_names_are_identifiers_witness :
  is_ident "area" = true /\ startswith "area" "~" = false.
Proof.
  destruct (captured_names_are_identifiers "double area() const {" FUNCTION_PATTERN
              (Match 0 21 "double area() const {" (Some "area")))
    as [A [_ [_ [_ [_ B]]]]].
  - simpl. tauto.
  - vm_compute. auto.
  - exact (conj A B).
Defined.

Lemma last_app_nonempty {X} (l l' : list X) d :
  l' <> [] -> last (l ++ l') d = last l' d.
Proof.
  intros N. induction l as [|x l IH]; [reflexivity|].
  change ((x :: l) ++ l') with (x :: (l ++ l')).
  destruct (l ++ l') eqn:E; [|exact IH].
  apply app_eq_nil in E. destruct E. contradiction.
Qed.

Lemma chars_append (s t : string) :
  list_ascii_of_string (s ++ t) = list_ascii_of_string s ++ list_ascii_of_string t.
Proof. induction s as [|a s IH]; simpl; congruence. Qed.

(** The last character of a string that ends with a non-empty suffix is
    the last character of the suffix. *)
Lemma endswith_last s p :
  endswith s p = true -> p <> "" ->
  last (list_ascii_of_string s) " "%char = last (list_ascii_of_string p) " "%char.
Proof.
  intros E N. apply endswith_app in E. destruct E as [pre ->].
  rewrite chars_append. apply last_app_nonempty.
  destruct p; [contradiction | discriminate].
Qed.

Lemma append_same_length (a b x y : string) :
  (a ++ x = b ++ y)%string -> String.length x = String.length y -> x = y.
Proof.
  revert b. induction a as [|c a IH]; intros b E L.
  - destruct b as [|d b]; [exact E|]. exfalso. simpl in E. subst x.
    simpl in L. rewrite length_append in L. lia.
  - destruct b as [|d b].
    + exfalso. simpl in E. subst y. simpl in L. rewrite length_append in L. lia.
    + simpl in E. injection E as _ E. exact (IH b E L).
Qed.

(** X9.  The paths [main] checks are exactly the headers and the source
    files of [check_file], and no path is both: every checked file falls
    under exactly one branch of the type-count rule. *)
Theorem file_kind_exclusive filepath :
  is_checked filepath = (is_header filepath || is_source filepath)
  /\ (is_header filepath = true -> is_source filepath = false).
Proof.
  unfold is_checked, is_header, is_source. split.
  - destruct (endswith filepath ".cpp"), (endswith filepath ".hpp"),
      (endswith filepath ".c"), (endswith filepath ".h"); reflexivity.
  - assert (L : forall p q,
               endswith filepath p = true -> endswith filepath q = true ->
               p <> "" -> q <> "" ->
               last (list_ascii_of_string p) " "%char
               = last (list_ascii_of_string q) " "%char).
    { intros p q Hp Hq Np Nq.
      now rewrite <- (endswith_last filepath p Hp Np), (endswith_last filepath q Hq Nq). }
    assert (M : endswith filepath ".hpp" = true -> endswith filepath ".cpp" = true ->
                False).
    { intros Hh Hc. apply endswith_app in Hh, Hc.
      destruct Hh as [a Ha]. destruct Hc as [b Hb]. rewrite Ha in Hb.
      apply append_same_length in Hb; [discriminate | reflexivity]. }
    destruct (endswith filepath ".hpp") eqn:Hpp, (endswith filepath ".h") eqn:Hh,
      (endswith filepath ".cpp") eqn:Cpp, (endswith filepath ".c") eqn:Cc;
      intros H; try reflexivity; try discriminate H; exfalso;
      try (now apply M);
      try (specialize (L ".h" ".cpp" Hh Cpp); discriminate L; discriminate);
      try (specialize (L ".h" ".c" Hh Cc); discriminate L; discriminate);
      try (specialize (L ".hpp" ".c" Hpp Cc); discriminate L; discriminate).
Qed.

Lemma file_kind_exclusive_witness : is_source "include/shape.hpp" = false.
Proof.
  destruct (file_kind_exclusive "include/shape.hpp") as [_ H]. apply H. reflexivity.
Defined.

(** * Further properties of the cache and the loop of [main] *)

Lemma pystr_eqb_eq a : forall b, pystr_eqb a b = true <-> a = b.
Proof.
  induction a as [|x a IH]; intros [|y b]; simpl; split; try discriminate; auto.
  - intros H. apply andb_true_iff in H. destruct H as [H1 H2].
    apply N.eqb_eq in H1. apply IH in H2. congruence.
  - intros H. injection H as -> ->. rewrite N.eqb_refl. now apply IH.
Qed.

Lemma pystr_eqb_neq a b : a <> b -> pystr_eqb a b = false.
Proof.
  intros N. destruct (pystr_eqb a b) eqn:E; [|reflexivity].
  apply pystr_eqb_eq in E. contradiction.
Qed.

Lemma dict_get_set_other {V} (d : list (pystr * V)) k k' v :
  k <> k' -> dict_get (dict_set d k v) k' = dict_get d k'.
Proof.
  intros N. induction d as [|[k0 v0] d IH]; simpl.
  - now rewrite (pystr_eqb_neq _ _ N).
  - destruct (pystr_eqb k0 k) eqn:E; simpl.
    + apply pystr_eqb_eq in E. subst k0. now rewrite (pystr_eqb_neq _ _ N).
    + now rewrite IH.
Qed.

Lemma dict_set_same {V} (d : list (pystr * V)) k v :
  dict_get d k = Some v -> dict_set d k v = d.
Proof.
  induction d as [|[k0 v0] d IH]; simpl; [discriminate|].
  destruct (pystr_eqb k0 k); intros H.
  - now injection H as ->.
  - now rewrite (IH H).
Qed.

Lemma dict_set_fixed {V} (d : list (pystr * V)) k v :
  dict_set d k v = d -> dict_get d k = Some v.
Proof. intros H. rewrite <- H. apply dict_get_set. Qed.

Lemma codepoints_inj a b : codepoints a = codepoints b -> a = b.
Proof.
  unfold codepoints. intros H.
  assert (L : list_ascii_of_string a = list_ascii_of_string b).
  { revert H. generalize (list_ascii_of_string a) (list_ascii_of_string b).
    induction l as [|x l IH]; intros [|y l'] H; try discriminate; [reflexivity|].
    simpl in H. injection H as H1 H2.
    apply (f_equal ascii_of_N) in H1. rewrite !ascii_N_embedding in H1.
    subst y. f_equal. now apply IH. }
  rewrite <- (string_of_list_ascii_of_string a), <- (string_of_list_ascii_of_string b).
  now rewrite L.
Qed.

Lemma float_eqb_refl f : f <> NaN -> float_eqb f f = true.
Proof.
  destruct f as [m e|b|]; simpl; intros N.
  - apply Z.eqb_refl.
  - now destruct b.
  - contradiction.
Qed.

Lemma record_violations_lookup av filepath v k :
  k <> codepoints filepath ->
  dict_get (record_violations av filepath v) k = dict_get av k.
Proof.
  intros N. unfold record_violations. destruct (truthy v); [|reflexivity].
  apply dict_get_set_other. congruence.
Qed.

Lemma truthy_py_messages msgs :
  truthy (py_messages msgs) = match msgs with [] => false | _ :: _ => true end.
Proof. now destruct msgs. Qed.

Lemma record_violations_messages av filepath msgs :
  dict_get av (codepoints filepath) = None \/
  dict_get av (codepoints filepath) = reported msgs ->
  dict_get (record_violations av filepath (py_messages msgs)) (codepoints filepath)
  = reported msgs.
Proof.
  unfold record_violations. rewrite truthy_py_messages.
  destruct msgs as [|m msgs]; simpl.
  - intros [H|H]; exact H.
  - intros _. apply dict_get_set.
Qed.

(** The loop body, from the cached object of the file. *)
Lemma main_file_form fs d av filepath f :
  fs filepath = Some f -> is_checked filepath = true ->
  main_file fs (PDict d, av) filepath
  = (r <- entry_outcome filepath f (dict_lookup d (codepoints filepath)) ;;
     Ok (PDict match fst r with
               | Some e => dict_set d (codepoints filepath) e
               | None => d
               end,
         record_violations av filepath (snd r))).
Proof.
  intros F C. unfold main_file, entry_outcome, dict_lookup, fresh_entry.
  rewrite F, C. cbn [py_get bind].
  destruct (match dict_get d (codepoints filepath) with
            | Some v => v
            | None => PNone
            end) as [| | | | | |e] eqn:X;
    cbn [truthy py_get bind];
    repeat match goal with
           | |- context [if ?b then _ else _] => destruct b eqn:?; cbn [py_get bind]
           | |- context [check_file ?p ?r] =>
               destruct (check_file p r) eqn:?; cbn [py_setitem bind fst snd]
           end; reflexivity.
Qed.

Lemma main_file_not_processed fs st filepath :
  processed fs filepath = false -> main_file fs st filepath = Ok st.
Proof.
  unfold processed, main_file. destruct st as [cache av].
  destruct (fs filepath); [|reflexivity]. now intros ->.
Qed.

Lemma processed_file fs filepath :
  processed fs filepath = true ->
  exists f, fs filepath = Some f /\ is_checked filepath = true.
Proof.
  unfold processed. destruct (fs filepath) as [f|]; [eauto | discriminate].
Qed.

(** A processed path needs a cache that is a [dict]; the state after the
    body is again a [dict] and a report. *)
Lemma main_file_ok_form fs cache av filepath f st' :
  fs filepath = Some f -> is_checked filepath = true ->
  main_file fs (cache, av) filepath = Ok st' ->
  exists d r,
    cache = PDict d
    /\ entry_outcome filepath f (dict_lookup d (codepoints filepath)) = Ok r
    /\ st' = (PDict match fst r with
                    | Some e => dict_set d (codepoints filepath) e
                    | None => d
                    end,
              record_violations av filepath (snd r)).
Proof.
  intros F C H. destruct cache as [| | | | | |d];
    try (unfold main_file in H; rewrite F, C in H; discriminate H).
  rewrite (main_file_form fs d av filepath f F C) in H.
  destruct (entry_outcome filepath f _) as [r|e] eqn:E; [|discriminate].
  injection H as <-. exists d, r. auto.
Qed.

Lemma main_file_lookup_other fs d av filepath d' av' k :
  main_file fs (PDict d, av) filepath = Ok (PDict d', av') ->
  k <> codepoints filepath ->
  dict_get d' k = dict_get d k /\ dict_get av' k = dict_get av k.
Proof.
  intros H N. destruct (processed fs filepath) eqn:P.
  - destruct (processed_file _ _ P) as [f [F C]].
    destruct (main_file_ok_form fs (PDict d) av filepath f _ F C H) as [d0 [r [E [_ S]]]].
    injection E as <-. injection S as -> ->. split.
    + destruct (fst r); [|reflexivity]. apply dict_get_set_other. congruence.
    + now apply record_violations_lookup.
  - rewrite (main_file_not_processed fs _ filepath P) in H. injection H as <- <-. auto.
Qed.

Lemma main_file_keeps_dict fs cache av filepath cache' av' :
  main_file fs (cache, av) filepath = Ok (cache', av') ->
  (exists d d', cache = PDict d /\ cache' = PDict d')
  \/ (processed fs filepath = false /\ cache' = cache /\ av' = av).
Proof.
  intros H. destruct (processed fs filepath) eqn:P.
  - destruct (processed_file _ _ P) as [f [F C]].
    destruct (main_file_ok_form fs cache av filepath f _ F C H) as [d [r [-> [_ S]]]].
    injection S as -> ->. left. eauto.
  - rewrite (main_file_not_processed fs _ filepath P) in H. injection H as <- <-. auto.
Qed.

(** X10.  The loop body changes nothing but the entries of its own path:
    every other key of the cache and of [all_violations] keeps its
    value, no entry of the cache is ever removed, and a path that is no
    regular file or has none of the four extensions changes nothing at
    all. *)
Theorem main_file_frame fs d av filepath cache' av' :
  main_file fs (PDict d, av) filepath = Ok (cache', av') ->
  exists d',
    cache' = PDict d'
    /\ (forall k, k <> codepoints filepath ->
                  dict_get d' k = dict_get d k /\ dict_get av' k = dict_get av k)
    /\ (forall k v, dict_get d k = Some v -> exists v', dict_get d' k = Some v')
    /\ (processed fs filepath = false -> d' = d /\ av' = av).
Proof.
  intros H.
  assert (D : exists d', cache' = PDict d').
  { destruct (main_file_keeps_dict _ _ _ _ _ _ H) as [[d0 [d' [_ E]]]|[_ [E _]]]; eauto. }
  destruct D as [d' ->]. exists d'. split; [reflexivity|].
  assert (O : forall k, k <> codepoints filepath ->
                dict_get d' k = dict_get d k /\ dict_get av' k = dict_get av k).
  { intros k N. eapply main_file_lookup_other; eassumption. }
  split; [exact O|]. split.
  - intros k v G. destruct (list_eq_dec N.eq_dec k (codepoints filepath)) as [->|N].
    + destruct (processed fs filepath) eqn:P.
      * destruct (processed_file _ _ P) as [f [F C]].
        destruct (main_file_ok_form fs (PDict d) av filepath f _ F C H)
          as [d0 [r [E [_ S]]]].
        injection E as <-. injection S as -> _.
        destruct (fst r); [rewrite dict_get_set; eauto | eauto].
      * rewrite (main_file_not_processed fs _ filepath P) in H.
        injection H as <- _. eauto.
    + destruct (O k N) as [-> _]. eauto.
  - intros P. rewrite (main_file_not_processed fs _ filepath P) in H.
    injection H as <- <-. auto.
Qed.

Lemma main_file_frame_witness :
  dict_get [(codepoints "gone.cpp", fresh_entry (Finite 1 0) []);
            (codepoints "src/a.h", fresh_entry (Finite 3400000003 (-1)) [])]
           (codepoints "gone.cpp")
  = dict_get ((codepoints "gone.cpp", fresh_entry (Finite 1 0) []) :: sample_cache)
             (codepoints "gone.cpp").
Proof.
  assert (E : main_file (sample_fs (Finite 3400000003 (-1)) "")
                (PDict ((codepoints "gone.cpp", fresh_entry (Finite 1 0) [])
                        :: sample_cache), []) "src/a.h"
              = Ok (PDict [(codepoints "gone.cpp", fresh_entry (Finite 1 0) []);
                           (codepoints "src/a.h",
                            fresh_entry (Finite 3400000003 (-1)) [])], []))
    by reflexivity.
  destruct (main_file_frame _ _ _ _ _ _ E) as [d' [D [O _]]].
  injection D as <-.
  assert (N : codepoints "gone.cpp" <> codepoints "src/a.h")
    by (intros X; discriminate X).
  now destruct (O _ N).
Defined.

(** X11.  Arguments that are no regular file or have none of the four
    extensions are skipped without any effect, wherever they stand among
    the arguments: the loop over all the arguments gives what the loop
    over the processed ones gives. *)
Theorem loop_skips_unprocessed fs argv st :
  for_each argv (main_file fs) st
  = for_each (filter (processed fs) argv) (main_file fs) st.
Proof.
  revert st. induction argv as [|p argv IH]; intros st; [reflexivity|].
  cbn [filter for_each]. destruct (processed fs p) eqn:P.
  - cbn [for_each]. destruct (main_file fs st p); simpl; auto.
  - rewrite (main_file_not_processed fs st p P). simpl. apply IH.
Qed.

Lemma key_lookups msgs mtime :
  dict_get [(key_mtime, PFloat mtime); (key_violations, py_messages msgs)] key_mtime
  = Some (PFloat mtime)
  /\ dict_get [(key_mtime, PFloat mtime); (key_violations, py_messages msgs)]
              key_violations
     = Some (py_messages msgs).
Proof. split; reflexivity. Qed.

(** On the entry the loop wrote for the current time, the body reuses. *)
Lemma entry_outcome_fresh filepath f msgs :
  f_mtime f <> NaN ->
  entry_outcome filepath f (fresh_entry (f_mtime f) msgs)
  = Ok (None, py_messages msgs).
Proof.
  intros N. unfold entry_outcome, fresh_entry. cbn [truthy negb py_get bind].
  destruct (key_lookups msgs (f_mtime f)) as [-> ->]. cbn [bind eq_float].
  rewrite (float_eqb_refl _ N). reflexivity.
Qed.

Lemma entry_outcome_stale filepath f cached e v :
  entry_outcome filepath f cached = Ok (Some e, v) ->
  exists msgs,
    check_file filepath (f_read f) = Ok msgs
    /\ e = fresh_entry (f_mtime f) msgs /\ v = py_messages msgs.
Proof.
  unfold entry_outcome. intros H.
  destruct (if truthy cached then _ else _) as [[|]|]; cbn [bind] in H;
    try discriminate.
  - destruct (py_get cached key_violations (PList [])); discriminate.
  - destruct (check_file filepath (f_read f)) as [msgs|]; [|discriminate].
    injection H as <- <-. eauto.
Qed.

Lemma entry_outcome_reuse filepath f cached v :
  entry_outcome filepath f cached = Ok (None, v) ->
  exists e stored,
    cached = PDict e /\ dict_get e key_mtime = Some stored
    /\ eq_float stored (f_mtime f) = true
    /\ v = match dict_get e key_violations with Some x => x | None => PList [] end.
Proof.
  unfold entry_outcome. intros H.
  destruct (truthy cached) eqn:T; cbn [bind] in H.
  - destruct cached as [| | | | | |e]; try discriminate H.
    cbn [py_get bind] in H.
    destruct (dict_get e key_mtime) as [stored|] eqn:M;
      [|cbn [eq_float] in H; destruct (check_file filepath (f_read f));
        discriminate H].
    destruct (eq_float stored (f_mtime f)) eqn:Q.
    + injection H as <-. exists e, stored. auto.
    + destruct (check_file filepath (f_read f)); discriminate H.
  - destruct (check_file filepath (f_read f)); discriminate H.
Qed.

Lemma record_violations_twice av filepath v :
  record_violations (record_violations av filepath v) filepath v
  = record_violations av filepath v.
Proof.
  unfold record_violations. destruct (truthy v); [|reflexivity].
  apply dict_set_same, dict_get_set.
Qed.

Lemma dict_lookup_eq d d' k :
  dict_get d' k = dict_get d k -> dict_lookup d' k = dict_lookup d k.
Proof. unfold dict_lookup. now intros ->. Qed.

Lemma entry_outcome_on_fresh filepath f msgs :
  check_file filepath (f_read f) = Ok msgs ->
  exists o,
    entry_outcome filepath f (fresh_entry (f_mtime f) msgs)
    = Ok (o, py_messages msgs)
    /\ (o = None \/ o = Some (fresh_entry (f_mtime f) msgs)).
Proof.
  intros M. unfold entry_outcome, fresh_entry. cbn [truthy negb py_get bind].
  destruct (key_lookups msgs (f_mtime f)) as [-> ->]. cbn [bind eq_float].
  destruct (float_eqb _ _).
  - eauto.
  - rewrite M. cbn [bind]. eauto.
Qed.

(** After the body has run on a path, running it again changes nothing. *)
Lemma main_file_settles fs st filepath st' :
  main_file fs st filepath = Ok st' -> settled fs st' filepath.
Proof.
  intros H. unfold settled. destruct (processed fs filepath) eqn:P;
    [|apply main_file_not_processed; exact P].
  destruct (processed_file _ _ P) as [f [F C]]. destruct st as [cache av].
  destruct (main_file_ok_form fs cache av filepath f st' F C H) as [d [[o v] [-> [E ->]]]].
  cbn [fst snd]. rewrite (main_file_form _ _ _ _ _ F C).
  destruct o as [e|].
  - destruct (entry_outcome_stale _ _ _ _ _ E) as [msgs [M [-> ->]]].
    unfold dict_lookup at 1. rewrite dict_get_set.
    destruct (entry_outcome_on_fresh filepath f msgs M) as [o [-> O]].
    cbn [bind fst snd]. rewrite record_violations_twice.
    destruct O as [->| ->]; [reflexivity|].
    now rewrite (dict_set_same _ _ _ (dict_get_set _ _ _)).
  - rewrite E. cbn [bind fst snd]. now rewrite record_violations_twice.
Qed.

(** Whether the body leaves a state alone depends on the two entries of
    the path only. *)
Lemma settled_by_lookup fs d av d2 av2 filepath :
  dict_get d2 (codepoints filepath) = dict_get d (codepoints filepath) ->
  dict_get av2 (codepoints filepath) = dict_get av (codepoints filepath) ->
  settled fs (PDict d, av) filepath -> settled fs (PDict d2, av2) filepath.
Proof.
  intros G1 G2 S. unfold settled in *. destruct (processed fs filepath) eqn:P;
    [|apply main_file_not_processed; exact P].
  destruct (processed_file _ _ P) as [f [F C]].
  rewrite (main_file_form _ _ _ _ _ F C) in S.
  rewrite (main_file_form _ _ _ _ _ F C).
  rewrite (dict_lookup_eq _ _ _ G1).
  destruct (entry_outcome filepath f _) as [[o v]|] eqn:E; [|discriminate].
  cbn [bind fst snd] in *. injection S as S1 S2. f_equal. f_equal.
  - f_equal. destruct o as [e|]; [|reflexivity].
    apply dict_set_same. rewrite G1. now apply dict_set_fixed.
  - unfold record_violations in *. destruct (truthy v); [|reflexivity].
    apply dict_set_same. rewrite G2. now apply dict_set_fixed.
Qed.

Lemma settled_preserved fs st filepath other st2 :
  settled fs st filepath -> main_file fs st other = Ok st2 ->
  settled fs st2 filepath.
Proof.
  intros S H. destruct (processed fs filepath) eqn:P;
    [|apply main_file_not_processed; exact P].
  destruct (string_dec other filepath) as [->|D].
  { unfold settled in S. rewrite S in H. now injection H as <-. }
  destruct (processed_file _ _ P) as [f [F C]]. destruct st as [cache av].
  destruct (main_file_ok_form fs cache av filepath f _ F C S) as [d [_ [-> _]]].
  destruct st2 as [cache2 av2].
  destruct (main_file_keeps_dict _ _ _ _ _ _ H) as [[d0 [d2 [_ ->]]]|[_ [-> ->]]];
    [|exact S].
  assert (K : codepoints filepath <> codepoints other).
  { intros X. apply codepoints_inj in X. congruence. }
  destruct (main_file_lookup_other _ _ _ _ _ _ _ H K) as [G1 G2].
  eapply settled_by_lookup; eassumption.
Qed.

Lemma loop_settled fs argv : forall st st',
    for_each argv (main_file fs) st = Ok st' ->
    forall p, In p argv -> settled fs st' p.
Proof.
  assert (K : forall l st st' p,
             settled fs st p -> for_each l (main_file fs) st = Ok st' ->
             settled fs st' p).
  { induction l as [|q l IH]; intros st st' p S H; simpl in H.
    - now injection H as <-.
    - destruct (main_file fs st q) as [st1|] eqn:E; [|discriminate].
      simpl in H. eapply IH; [|exact H]. eapply settled_preserved; eassumption. }
  induction argv as [|q argv IH]; intros st st' H p I; [contradiction|].
  simpl in H. destruct (main_file fs st q) as [st1|] eqn:E; [|discriminate].
  simpl in H. destruct I as [->|I].
  - apply (K argv st1 st' p); [|exact H].
    eapply main_file_settles; exact E.
  - apply (IH st1 st' H); exact I.
Qed.

Lemma loop_fixed fs argv st :
  (forall p, In p argv -> settled fs st p) ->
  for_each argv (main_file fs) st = Ok st.
Proof.
  induction argv as [|q argv IH]; intros S; [reflexivity|].
  simpl. rewrite (S q (or_introl eq_refl)). simpl. apply IH.
  intros p I. apply S. now right.
Qed.

Lemma settled_valid fs d av filepath f :
  fs filepath = Some f -> is_checked filepath = true -> f_mtime f <> NaN ->
  settled fs (PDict d, av) filepath ->
  entry_valid d filepath (f_mtime f) = true.
Proof.
  intros F C N S. unfold settled in S. rewrite (main_file_form _ _ _ _ _ F C) in S.
  destruct (entry_outcome filepath f _) as [[o v]|] eqn:E; [|discriminate].
  cbn [bind fst snd] in S. injection S as S1 _. destruct o as [e|].
  - exfalso. destruct (entry_outcome_stale _ _ _ _ _ E) as [msgs [_ [-> _]]].
    apply dict_set_fixed in S1. unfold dict_lookup in E. rewrite S1 in E.
    rewrite (entry_outcome_fresh filepath f msgs N) in E. discriminate.
  - destruct (entry_outcome_reuse _ _ _ _ E) as [e [stored [X [M [Q _]]]]].
    unfold entry_valid. unfold dict_lookup in X.
    destruct (dict_get d (codepoints filepath)) as [c|]; [|discriminate].
    subst c. now rewrite M.
Qed.

(** X12.  The loop of [main] is idempotent.  When it has run over the
    arguments, running it again from the cache and the report it left
    changes neither; in this second pass every processed file whose
    modification time is not a NaN has a valid entry, so it is not
    checked again. *)
Theorem loop_idempotent fs argv st cache' av' :
  for_each argv (main_file fs) st = Ok (cache', av') ->
  for_each argv (main_file fs) (cache', av') = Ok (cache', av')
  /\ (forall p f, In p argv -> fs p = Some f -> is_checked p = true ->
        f_mtime f <> NaN ->
        exists d', cache' = PDict d' /\ entry_valid d' p (f_mtime f) = true).
Proof.
  intros H. pose proof (loop_settled fs argv st _ H) as S.
  split; [now apply loop_fixed|].
  intros p f I F C N. specialize (S p I).
  destruct (main_file_ok_form fs cache' av' p f _ F C S) as [d' [_ [-> _]]].
  exists d'. split; [reflexivity|].
  eapply settled_valid; eauto.
Qed.

Lemma loop_idempotent_witness :
  exists cache' av',
    for_each ["src/a.h"; "README"; "src/a.h"]
             (main_file (sample_fs (Finite 3400000003 (-1)) ""))
             (PDict sample_cache, [])
    = Ok (cache', av')
    /\ for_each ["src/a.h"; "README"; "src/a.h"]
                (main_file (sample_fs (Finite 3400000003 (-1)) ""))
                (cache', av')
       = Ok (cache', av').
Proof.
  destruct (for_each ["src/a.h"; "README"; "src/a.h"]
              (main_file (sample_fs (Finite 3400000003 (-1)) ""))
              (PDict sample_cache, [])) as [[cache' av']|e] eqn:E;
    [|vm_compute in E; discriminate E].
  exists cache', av'. split; [reflexivity|].
  apply (loop_idempotent _ _ _ _ _ E).
Defined.

Lemma entry_outcome_bad filepath f cached :
  no_get cached = true ->
  entry_outcome filepath f cached = Raise AttributeError.
Proof.
  unfold entry_outcome, no_get. intros T.
  destruct cached; try discriminate T; rewrite T; reflexivity.
Qed.

Lemma entry_outcome_good filepath f cached :
  is_checked filepath = true ->
  no_get cached = false ->
  exists r, entry_outcome filepath f cached = Ok r.
Proof.
  unfold no_get. intros C T. destruct (check_file_checked filepath (f_read f) C) as [msgs M].
  unfold entry_outcome. rewrite M.
  destruct cached as [| | | | | |e]; try (rewrite T; cbn [bind]; eauto).
  destruct (truthy (PDict e)); cbn [py_get bind]; [|eauto].
  destruct (eq_float _ _); cbn [bind]; eauto.
Qed.

(** One turn of the loop on a processed path: it raises on an entry
    without [get], and otherwise leaves a cache with the same such
    entries. *)
Lemma main_file_cases fs d av filepath :
  processed fs filepath = true ->
  if bad_entry d filepath
  then main_file fs (PDict d, av) filepath = Raise AttributeError
  else exists d1 av1,
      main_file fs (PDict d, av) filepath = Ok (PDict d1, av1)
      /\ forall q, bad_entry d1 q = bad_entry d q.
Proof.
  intros P. destruct (processed_file _ _ P) as [f [F C]].
  rewrite (main_file_form _ _ _ _ _ F C).
  destruct (bad_entry d filepath) eqn:B; unfold bad_entry in B.
  - now rewrite (entry_outcome_bad filepath f
                   (dict_lookup d (codepoints filepath)) B).
  - destruct (entry_outcome_good filepath f
                (dict_lookup d (codepoints filepath)) C B) as [[o v] E].
    rewrite E.
    cbn [bind fst snd]. eexists _, _. split; [reflexivity|]. intros q.
    destruct o as [e|]; [|reflexivity].
    destruct (entry_outcome_stale _ _ _ _ _ E) as [msgs [_ [-> _]]].
    unfold bad_entry, dict_lookup. destruct (string_dec q filepath) as [->|D].
    + rewrite dict_get_set. unfold dict_lookup in B. now rewrite B.
    + rewrite dict_get_set_other; [reflexivity|].
      intros X. apply codepoints_inj in X. congruence.
Qed.

Lemma existsb_pointwise {X} (g h : X -> bool) l :
  (forall x, g x = h x) -> existsb g l = existsb h l.
Proof. intros E. induction l as [|x l IH]; simpl; [reflexivity|]. now rewrite E, IH. Qed.

Lemma loop_cases fs argv : forall d av,
    if existsb (fun p => processed fs p && bad_entry d p) argv
    then for_each argv (main_file fs) (PDict d, av) = Raise AttributeError
    else exists d' av',
        for_each argv (main_file fs) (PDict d, av) = Ok (PDict d', av').
Proof.
  induction argv as [|q argv IH]; intros d av; cbn [existsb for_each].
  { eauto. }
  destruct (processed fs q) eqn:P; cbn [andb orb].
  - pose proof (main_file_cases fs d av q P) as M.
    destruct (bad_entry d q); cbn [orb].
    + now rewrite M.
    + destruct M as [d1 [av1 [-> B]]]. cbn [bind].
      specialize (IH d1 av1).
      rewrite (existsb_pointwise (fun p => processed fs p && bad_entry d1 p)
                                 (fun p => processed fs p && bad_entry d p))
        in IH; [exact IH|].
      intros p. now rewrite B.
  - rewrite (main_file_not_processed _ _ _ P). cbn [bind]. apply IH.
Qed.

(** X13.  The loop of [main] raises exactly when the cache holds, for
    one of the processed arguments, an object that counts as true and
    has no [get] (a non-empty list or string, a non-zero number,
    [True]); the exception is then AttributeError.  On every other
    cache it ends, and the cache is still a dict. *)
Theorem loop_raises_on_bad_entry fs argv d av :
  (existsb (fun p => processed fs p && bad_entry d p) argv = true
   <-> exists e, for_each argv (main_file fs) (PDict d, av) = Raise e)
  /\ (existsb (fun p => processed fs p && bad_entry d p) argv = false
      <-> exists d' av',
          for_each argv (main_file fs) (PDict d, av) = Ok (PDict d', av'))
  /\ (forall e, for_each argv (main_file fs) (PDict d, av) = Raise e
                <-> existsb (fun p => processed fs p && bad_entry d p) argv = true
                    /\ e = AttributeError).
Proof.
  pose proof (loop_cases fs argv d av) as L.
  destruct (existsb _ argv).
  - rewrite L. split; [|split].
    + split; eauto.
    + split; [discriminate|]. intros [d' [av' H]]. discriminate H.
    + intros e. split.
      * intros H. now injection H as <-.
      * now intros [_ ->].
  - destruct L as [d' [av' ->]]. split; [|split].
    + split; [discriminate|]. intros [e H]. discriminate H.
    + split; eauto.
    + intros e. split; [discriminate|]. intros [H _]. discriminate H.
Qed.

Lemma covered_cons fs q done p :
  covered fs (q :: done) p
  = (String.eqb p q && processed fs p) || covered fs done p.
Proof.
  unfold covered. cbn [existsb].
  destruct (String.eqb p q), (existsb _ done), (processed fs p); reflexivity.
Qed.

Lemma covered_In fs done p :
  covered fs done p = true <-> In p done /\ processed fs p = true.
Proof.
  unfold covered. rewrite andb_true_iff, existsb_exists. split.
  - intros [[x [I E]] P]. apply String.eqb_eq in E. subst x. auto.
  - intros [I P]. split; [|exact P]. exists p. split; [exact I|].
    apply String.eqb_refl.
Qed.

Lemma record_violations_same av filepath msgs :
  dict_get av (codepoints filepath) = reported msgs ->
  record_violations av filepath (py_messages msgs) = av.
Proof.
  intros G. unfold record_violations. rewrite truthy_py_messages.
  destruct msgs as [|m msgs]; [reflexivity|]. now apply dict_set_same.
Qed.

(** One turn of the loop keeps the cache and the report equal to the
    results of [check_file]. *)
Lemma results_of_step fs done d av q :
  results_of fs done d av ->
  exists d1 av1,
    main_file fs (PDict d, av) q = Ok (PDict d1, av1)
    /\ results_of fs (q :: done) d1 av1.
Proof.
  intros [R1 R2]. destruct (processed fs q) eqn:P.
  2:{ exists d, av. split; [now apply main_file_not_processed|]. split.
      - intros p. rewrite covered_cons. intros H. apply R1.
        destruct (String.eqb p q) eqn:E; [|exact H].
        apply String.eqb_eq in E. subst p. now rewrite P in H.
      - intros k H. apply R2. intros p Cv. apply H. rewrite covered_cons, Cv.
        apply orb_true_r. }
  destruct (processed_file _ _ P) as [f [F C]].
  rewrite (main_file_form _ _ _ _ _ F C).
  destruct (covered fs done q) eqn:Cq.
  - destruct (R1 q Cq) as [f' [msgs [F' [M [G1 G2]]]]].
    assert (f' = f) by congruence. subst f'.
    unfold dict_lookup. rewrite G1.
    destruct (entry_outcome_on_fresh q f msgs M) as [o [-> O]]. cbn [bind fst snd].
    rewrite (record_violations_same _ _ _ G2).
    exists d, av. split.
    + destruct O as [->| ->]; [reflexivity|]. now rewrite (dict_set_same _ _ _ G1).
    + split.
      * intros p. rewrite covered_cons. intros H. apply R1.
        destruct (String.eqb p q) eqn:E; [|exact H].
        apply String.eqb_eq in E. now subst p.
      * intros k H. apply R2. intros p Cv. apply H. rewrite covered_cons, Cv.
        apply orb_true_r.
  - assert (K : forall p, covered fs done p = true ->
                          codepoints q <> codepoints p).
    { intros p Cv X. apply codepoints_inj in X. subst p. congruence. }
    destruct (R2 _ K) as [G1 G2]. unfold dict_lookup. rewrite G1.
    destruct (check_file_checked q (f_read f) C) as [msgs M].
    unfold entry_outcome. cbn [truthy bind]. rewrite M. cbn [bind fst snd].
    eexists _, _. split; [reflexivity|]. split.
    + intros p. rewrite covered_cons. destruct (string_dec p q) as [->|D].
      * intros _. exists f, msgs. repeat split; try assumption.
        -- apply dict_get_set.
        -- apply record_violations_messages. now left.
      * assert (E : String.eqb p q = false) by now apply String.eqb_neq.
        rewrite E. cbn [andb orb]. intros Cv.
        destruct (R1 p Cv) as [f' [msgs' [F' [M' [H1 H2]]]]].
        assert (N : codepoints q <> codepoints p).
        { intros X. apply codepoints_inj in X. congruence. }
        exists f', msgs'. repeat split; try assumption.
        -- now rewrite dict_get_set_other.
        -- rewrite record_violations_lookup; [exact H2|]. congruence.
    + intros k H.
      assert (N : k <> codepoints q).
      { apply H. rewrite covered_cons, String.eqb_refl, P. reflexivity. }
      rewrite dict_get_set_other by congruence.
      rewrite record_violations_lookup by exact N.
      apply R2. intros p Cv. apply H. rewrite covered_cons, Cv. apply orb_true_r.
Qed.

Lemma results_of_loop fs argv : forall done d av,
    results_of fs done d av ->
    exists d' av',
      for_each argv (main_file fs) (PDict d, av) = Ok (PDict d', av')
      /\ results_of fs (rev argv ++ done) d' av'.
Proof.
  induction argv as [|q argv IH]; intros done d av R.
  { exists d, av. split; [reflexivity|exact R]. }
  destruct (results_of_step fs done d av q R) as [d1 [av1 [E R1]]].
  destruct (IH (q :: done) d1 av1 R1) as [d' [av' [E' R']]].
  exists d', av'. split.
  - cbn [for_each]. rewrite E. exact E'.
  - cbn [rev]. now rewrite <- app_assoc.
Qed.

(** X14.  A run without a cache.  From the empty cache the loop of
    [main] ends; afterwards the cache holds, for every processed
    argument, the entry with the file's modification time and the
    messages of [check_file], the report holds these messages for the
    files that have some and nothing for the others, neither holds any
    other key, and the report is empty (the case in which [main]
    returns 0) exactly when [check_file] has no message for any
    processed argument. *)
Theorem first_run fs argv :
  exists d av,
    for_each argv (main_file fs) (PDict [], []) = Ok (PDict d, av)
    /\ (forall p f, In p argv -> fs p = Some f -> is_checked p = true ->
          exists msgs,
            check_file p (f_read f) = Ok msgs
            /\ dict_get d (codepoints p) = Some (fresh_entry (f_mtime f) msgs)
            /\ dict_get av (codepoints p) = reported msgs)
    /\ (forall k, ~ (exists p, In p argv /\ processed fs p = true
                               /\ k = codepoints p) ->
                  dict_get d k = None /\ dict_get av k = None)
    /\ (av = [] <->
        forall p f, In p argv -> fs p = Some f -> is_checked p = true ->
                    check_file p (f_read f) = Ok []).
Proof.
  assert (R0 : results_of fs [] [] []).
  { split; [intros p H; discriminate H | intros k _; split; reflexivity]. }
  destruct (results_of_loop fs argv [] [] [] R0) as [d [av [E [R1 R2]]]].
  rewrite app_nil_r in R1, R2.
  assert (A : forall p f, In p argv -> fs p = Some f -> is_checked p = true ->
                exists msgs,
                  check_file p (f_read f) = Ok msgs
                  /\ dict_get d (codepoints p) = Some (fresh_entry (f_mtime f) msgs)
                  /\ dict_get av (codepoints p) = reported msgs).
  { intros p f I F C.
    destruct (R1 p) as [f' [msgs [F' H]]].
    - apply covered_In. split; [now apply in_rev in I|].
      unfold processed. now rewrite F.
    - assert (f' = f) by congruence. subst f'. eauto. }
  assert (B : forall k, ~ (exists p, In p argv /\ processed fs p = true
                                     /\ k = codepoints p) ->
                        dict_get d k = None /\ dict_get av k = None).
  { intros k H. apply R2. intros p Cv X. apply H. exists p.
    apply covered_In in Cv. destruct Cv as [I P]. apply in_rev in I. auto. }
  exists d, av. split; [exact E|]. split; [exact A|]. split; [exact B|]. split.
  - intros -> p f I F C. destruct (A p f I F C) as [msgs [M [_ G]]].
    destruct msgs; [exact M|discriminate G].
  - intros H. destruct av as [|[k v] av]; [reflexivity|]. exfalso.
    assert (G : dict_get ((k, v) :: av) k = Some v).
    { cbn [dict_get]. now rewrite pystr_eqb_refl. }
    destruct (existsb (fun p => processed fs p && pystr_eqb (codepoints p) k) argv)
      eqn:X.
    + apply existsb_exists in X. destruct X as [p [I X]].
      apply andb_true_iff in X. destruct X as [P X]. apply pystr_eqb_eq in X.
      subst k. destruct (processed_file _ _ P) as [f [F C]].
      destruct (A p f I F C) as [msgs [M [_ G']]].
      rewrite (H p f I F C) in M. injection M as <-. rewrite G in G'.
      discriminate G'.
    + destruct (B k) as [_ G']; [|rewrite G in G'; discriminate G'].
      intros [p [I [P K]]]. apply not_true_iff_false in X. apply X.
      apply existsb_exists. exists p. split; [exact I|].
      rewrite P, K. apply pystr_eqb_refl.
Qed.

Lemma loop_skips_settled fs q l : forall st,
    settled fs st q ->
    for_each l (main_file fs) st
    = for_each (filter (fun y => negb (String.eqb y q)) l) (main_file fs) st.
Proof.
  induction l as [|x l IH]; intros st S; [reflexivity|].
  cbn [filter]. destruct (String.eqb x q) eqn:E; cbn [negb for_each].
  - apply String.eqb_eq in E. subst x. unfold settled in S. rewrite S.
    cbn [bind]. now apply IH.
  - destruct (main_file fs st x) as [st1|e] eqn:M; cbn [bind]; [|reflexivity].
    apply IH. eapply settled_preserved; eassumption.
Qed.

(** X15.  Repeated arguments change nothing: the loop of [main] over the
    arguments gives the same cache, the same report and the same
    exception, if any, as the loop over the arguments with every path
    kept at its first occurrence only. *)
Theorem loop_ignores_repeats fs argv st :
  for_each argv (main_file fs) st
  = for_each (dedup_first argv) (main_file fs) st.
Proof.
  revert st. induction argv as [|q argv IH]; intros st; [reflexivity|].
  cbn [dedup_first for_each].
  destruct (main_file fs st q) as [st1|e] eqn:M; cbn [bind]; [|reflexivity].
  rewrite IH. apply loop_skips_settled. eapply main_file_settles; exact M.
Qed.
